(** * emilbot: a headless Matrix client (src/main.ts)

    A shallow embedding of [src/main.ts]: the room ordering of
    [getRoomList], the credential lifecycle of [start], the top-level
    bootstrap script (key backup, SAS verification) and the two timeline
    consumers (the [RoomEvent.Timeline] handler and the [scrollback]
    callback).

    The program talks to three collaborators that are not part of the
    repository: the [node-localstorage] store, the [matrix-js-sdk] client and
    the console.  The store is modelled as a finite map; every call into the
    SDK or the console is recorded as an [Action] in a trace, and what the
    outside world answers is read from a [World] record. *)

From Stdlib Require Import ZArith Permutation Sorting.Sorted.
From stdpp Require Import gmap strings list sorting.

Local Open Scope string_scope.
Local Open Scope list_scope.
Local Open Scope Z_scope.

(** ** Data model *)

(** A JavaScript object with string fields, as returned by
    [event.getContent()]. *)
Abbreviation Content := (gmap string string).

(** A timeline event.  [ev_wire] is the content as received (ciphertext for
    an encrypted event); the decrypted content is not part of the record: it
    is mutable state of the event object, kept in [st_clear] below and keyed
    by [ev_id]. *)
Record MatrixEvent := {
  ev_id : string;
  ev_type : string;     (* event.getType() *)
  ev_ts : Z;            (* event.getTs() *)
  ev_wire : Content
}.

(** A room: [room_events r] is [r.getLiveTimeline().getEvents()]. *)
Record Room := {
  room_id : string;
  room_name : string;
  room_events : list MatrixEvent
}.

(** ** Room ordering (main.ts 125-152) *)

(** The comparison callback handed to [rooms.sort].  [last] is stdpp's
    option-valued last element: [aEvents[aEvents.length - 1]] is [undefined]
    on an empty array, and [undefined == null] holds. *)
Definition compareRooms (a b : Room) : Z :=
  let aEvents := room_events a in
  let bEvents := room_events b in
  match last aEvents with
  | None => -1
  | Some aMsg =>
    match last bEvents with
    | None => 1
    | Some bMsg =>
      if ev_ts aMsg =? ev_ts bMsg then 0
      else if ev_ts aMsg >? ev_ts bMsg then 1 else -1
    end
  end.

(** [Array.prototype.sort] with a comparison callback.  ECMAScript requires
    the sort to be stable and leaves the algorithm to the engine.  Engines
    sort by merging sorted runs (V8 inserts a pivot into the sorted run
    before it and merges runs, JavaScriptCore merges runs of doubling
    width), and they ask the callback one way: it is called with the later
    element first and the earlier one second, and the later element goes
    first when the answer is negative.

    [sort_merge cmp left right] is that merge step, [left] being the run
    that comes first in the array. *)
Fixpoint sort_merge {A} (cmp : A → A → Z) (left right : list A) : list A :=
  match left with
  | [] => right
  | x :: left' =>
    (fix merge_right (right : list A) : list A :=
       match right with
       | [] => left
       | y :: right' =>
         if cmp y x <? 0 then y :: merge_right right'
         else x :: sort_merge cmp left' right
       end) right
  end.

(** The executable model: every element in turn is merged, as a run of
    one, into the sorted elements before it (an insertion sort). *)
Definition array_sort {A} (cmp : A → A → Z) (l : list A) : list A :=
  foldl (λ sorted x, sort_merge cmp sorted [x]) [] l.

(** What a sort built on that merge step can return, whatever runs it cuts
    the array into and in whatever order it merges neighbouring runs:
    [Sorts cmp l out] when [out] is a result for the array [l]. *)
Inductive Sorts {A} (cmp : A → A → Z) : list A → list A → Prop :=
| Sorts_nil : Sorts cmp [] []
| Sorts_one x : Sorts cmp [x] [x]
| Sorts_merge l1 l2 out1 out2 :
    Sorts cmp l1 out1 → Sorts cmp l2 out2 →
    Sorts cmp (l1 ++ l2) (sort_merge cmp out1 out2).

(** [rooms] stands for [client.getRooms()]. *)
Definition getRoomList (rooms : list Room) : list Room :=
  array_sort compareRooms rooms.

(** ** Effects *)

(** A thrown JavaScript value: the constructor name and the message. *)
Record JsError := { err_class : string; err_message : string }.

(** How an awaited promise settles. *)
Inductive Settled (A : Type) :=
| Resolved (a : A)
| Rejected (e : JsError).
Arguments Resolved {A} a.
Arguments Rejected {A} e.

Record PasswordLogin := {
  pl_baseUrl : string;
  pl_userId : string;
  pl_password : string
}.

Record TokenLogin := {
  tl_baseUrl : string;
  tl_userId : string;
  tl_accessToken : string;
  tl_deviceId : string
}.

(** The client returned by [sdk.createClient], identified by the options it
    was created with. *)
Record MatrixClient := { client_opts : TokenLogin }.

(** Arguments of [console.log]. *)
Inductive JsValue :=
| VStr (s : string)
| VNum (n : Z)
| VBool (b : bool)
| VStatus (verified : bool)     (* a UserVerificationStatus object *)
| VUndefined.

(** Calls that leave the program, in program order. *)
Inductive Action :=
| ACreateLoginClient (baseUrl : string)   (* sdk.createClient({ baseUrl }) *)
| ALogin (user password : string)         (* loginClient.login(Password, _) *)
| AStopLoginClient                        (* loginClient.stopClient() *)
| ASetItem (key value : string)           (* localStorage.setItem(key, value) *)
| ACreateClient (t : TokenLogin)          (* sdk.createClient({...tokenLogin}) *)
| AInitRustCrypto                         (* await client.initRustCrypto(_) *)
| AStartClient (initialSyncLimit : Z)     (* await client.startClient(_) *)
| AOnceSync                               (* await of the first Sync event *)
| ALog (args : list JsValue)              (* console.log(args) *)
| ALogContent (ev : string) (c : Content) (* console.log(event.getContent()),
                                             tagged with the event's id *)
| ACheckKeyBackupAndEnable                (* await crypto.checkKeyBackupAndEnable() *)
| AGetUserVerificationStatus (user : string)
| ARequestOwnUserVerification
| ASleep (ms : Z)                         (* await of setTimeout(res, ms) *)
| AVerify                                 (* verifier.verify(), not awaited *)
| AGetShowSasCallbacks
| APrompt (question : string)
| AMismatch                               (* sas.mismatch() *)
| AConfirm                                (* await sas.confirm() *)
| AAwaitVerify                            (* await wait *)
| AOnTimeline                             (* client.on(RoomEvent.Timeline, _) *)
| AGetRooms                               (* client.store.getRooms() *)
| AScrollback (room : option Room) (limit : Z)
| ADecrypt (ev : string).                 (* decryption run for an event *)

(** Mutable state: the [node-localstorage] store and, per event id, the
    decrypted content an event object caches once it has been decrypted. *)
Record State := {
  st_localStorage : gmap string string;
  st_clear : gmap string Content
}.

(** How a computation ends: it returns, throws, calls [process.exit], or
    never ends. *)
Inductive Outcome (A : Type) :=
| Return (a : A)
| Throw (e : JsError)
| Exit (code : Z)
| Diverge.
Arguments Return {A} a.
Arguments Throw {A} e.
Arguments Exit {A} code.
Arguments Diverge {A}.

Record Run (A : Type) := {
  outcome : Outcome A;
  final : State;
  trace : list Action
}.
Arguments outcome {A} r.
Arguments final {A} r.
Arguments trace {A} r.

Definition M (A : Type) : Type := State → Run A.

Definition ret {A} (a : A) : M A :=
  λ s, {| outcome := Return a; final := s; trace := [] |}.

Definition bind {A B} (m : M A) (f : A → M B) : M B :=
  λ s,
    match m s with
    | {| outcome := o; final := s'; trace := t |} =>
      match o with
      | Return a =>
        match f a s' with
        | {| outcome := o'; final := s''; trace := t' |} =>
          {| outcome := o'; final := s''; trace := t ++ t' |}
        end
      | Throw e => {| outcome := Throw e; final := s'; trace := t |}
      | Exit c => {| outcome := Exit c; final := s'; trace := t |}
      | Diverge => {| outcome := Diverge; final := s'; trace := t |}
      end
    end.

Notation "x <- m ;; k" := (bind m (λ x, k))
  (at level 100, m at next level, right associativity).
Notation "m ;; k" := (bind m (λ _, k))
  (at level 100, right associativity).

(** A call that cannot fail. *)
Definition act (a : Action) : M unit :=
  λ s, {| outcome := Return tt; final := s; trace := [a] |}.

(** [await] of a call whose promise settles as [r].  Every awaited promise
    is taken to settle, and [prompt] to answer: a run that waits forever at
    one of them is not described; [Diverge] stands for the polling loop that
    never sees its exit condition. *)
Definition await {A} (a : Action) (r : Settled A) : M A :=
  λ s, {| outcome := match r with
                     | Resolved x => Return x
                     | Rejected e => Throw e
                     end;
          final := s; trace := [a] |}.

Definition throw {A} (e : JsError) : M A :=
  λ s, {| outcome := Throw e; final := s; trace := [] |}.

(** [process.exit(code)] *)
Definition exit {A} (code : Z) : M A :=
  λ s, {| outcome := Exit code; final := s; trace := [] |}.

Definition diverge {A} : M A :=
  λ s, {| outcome := Diverge; final := s; trace := [] |}.

(** [localStorage.getItem(key)]: [null] for a missing key. *)
Definition getItem (key : string) : M (option string) :=
  λ s, {| outcome := Return (st_localStorage s !! key); final := s;
          trace := [] |}.

Definition setItem (key value : string) : M unit :=
  λ s, {| outcome := Return tt;
          final := {| st_localStorage := <[key:=value]> (st_localStorage s);
                      st_clear := st_clear s |};
          trace := [ASetItem key value] |}.

Fixpoint forEach {A} (l : list A) (f : A → M unit) : M unit :=
  match l with
  | [] => ret tt
  | x :: l' => f x ;; forEach l' f
  end.

(** What the outside world answers.  The four [sdk_] fields are the
    constants of [matrix-js-sdk] the program compares against: they are
    parameters of the model. *)
Record World := {
  sdk_RoomMessage : string;           (* sdk.EventType.RoomMessage *)
  sdk_RoomMessageEncrypted : string;  (* sdk.EventType.RoomMessageEncrypted *)
  sdk_MsgType_Text : string;          (* sdk.MsgType.Text *)
  sdk_VerificationPhase_Started : Z;  (* VerificationPhase.Started *)
  env_MATRIX_USER : string;
  env_MATRIX_PASSWORD : string;
  (* loginClient.login: access_token and device_id of the response *)
  w_login : PasswordLogin → Settled (string * string);
  w_initRustCrypto : Settled unit;
  w_startClient : Settled unit;
  w_sync : string;                    (* state of the first Sync event *)
  (* crypto.checkKeyBackupAndEnable(), by call number from 0 *)
  w_checkKeyBackupAndEnable : nat → Settled unit;
  w_isVerified : Settled bool;        (* getUserVerificationStatus *)
  w_requestOwnUserVerification : Settled unit;
  (* verReq.phase when the request returns, then after each second; it
     keeps its last value afterwards *)
  w_phase : Z;
  w_phases : list Z;
  w_verifier : bool;                  (* verReq.verifier is defined *)
  w_verify : Settled unit;            (* the promise of verifier.verify() *)
  (* verifier.getShowSasCallbacks(): null, or callbacks with their sas *)
  w_sas : option string;
  w_prompt : option string;           (* prompt(_): a line, or null *)
  w_confirm : Settled unit;           (* sas.confirm() *)
  w_rooms : list Room;                (* client.store.getRooms() *)
  w_decrypt : MatrixEvent → Content   (* plaintext of an encrypted event *)
}.

(** ** The program *)

Section Program.
Variable w : World.

(** main.ts 26-50 *)
Definition startWithToken (tokenLogin : TokenLogin) : M MatrixClient :=
  act (ACreateClient tokenLogin) ;;
  await AInitRustCrypto (w_initRustCrypto w) ;;
  await (AStartClient 5) (w_startClient w) ;;
  act AOnceSync ;;
  let state := w_sync w in
  if negb (String.eqb state "PREPARED") then
    throw {| err_class := "Error"; err_message := "Sync failed." |}
  else ret {| client_opts := tokenLogin |}.

(** main.ts 55-76 *)
Definition getTokenLogin (passwordLogin : PasswordLogin) : M TokenLogin :=
  act (ACreateLoginClient (pl_baseUrl passwordLogin)) ;;
  response <- await (ALogin (pl_userId passwordLogin)
                            (pl_password passwordLogin))
                    (w_login w passwordLogin) ;;
  act AStopLoginClient ;;
  ret {| tl_baseUrl := pl_baseUrl passwordLogin;
         tl_userId := pl_userId passwordLogin;
         tl_accessToken := fst response;
         tl_deviceId := snd response |}.

Definition tokenKey (userId : string) : string := "token-" +:+ userId.
Definition deviceKey (userId : string) : string := "device-" +:+ userId.

(** main.ts 78-114 *)
Definition start (passwordLogin : PasswordLogin) : M MatrixClient :=
  accessToken <- getItem (tokenKey (pl_userId passwordLogin)) ;;
  deviceId <- getItem (deviceKey (pl_userId passwordLogin)) ;;
  tokenLogin <-
    match accessToken, deviceId with
    | Some accessToken, Some deviceId =>
      ret {| tl_baseUrl := pl_baseUrl passwordLogin;
             tl_userId := pl_userId passwordLogin;
             tl_accessToken := accessToken;
             tl_deviceId := deviceId |}
    | _, _ =>
      tokenLogin <- getTokenLogin passwordLogin ;;
      setItem (tokenKey (pl_userId passwordLogin))
              (tl_accessToken tokenLogin) ;;
      setItem (deviceKey (pl_userId passwordLogin))
              (tl_deviceId tokenLogin) ;;
      ret tokenLogin
    end ;;
  client <- startWithToken tokenLogin ;;
  ret client.

(** main.ts 172-175: [cur] is [verReq.phase] now, [later] its values after
    each coming second.  Once [later] is used up the phase stays what it
    is, and a loop that still sees it below [Started] spins forever. *)
Fixpoint pollPhase (cur : Z) (later : list Z) : M unit :=
  if cur <? sdk_VerificationPhase_Started w then
    match later with
    | [] => diverge
    | next :: later' =>
      act (ASleep 1000) ;;
      act (ALog [VStr "Pending"; VNum next]) ;;
      pollPhase next later'
    end
  else ret tt.

(** main.ts 168-193, the body of [if (!verstatus.isVerified())].  Calling
    [verify] on an undefined [verReq.verifier] is a TypeError.  The promise
    [wait] of [verify] is looked at where the script awaits it: [w_verify] is
    how it has settled by then. *)
Definition verification : M unit :=
  await ARequestOwnUserVerification (w_requestOwnUserVerification w) ;;
  act (ALog [VStr "-----------\n\n CRYPTO BOOTSTRAPPED\n\n-----------"]) ;;
  pollPhase (w_phase w) (w_phases w) ;;
  act (ALog [VStr "Done"]) ;;
  (if w_verifier w then act AVerify
   else throw {| err_class := "TypeError";
                 err_message := "verifier is undefined" |}) ;;
  act (ASleep 1000) ;;
  act AGetShowSasCallbacks ;;
  let sas := w_sas w in
  act (ALog [VStr "Emojis:";
             match sas with Some e => VStr e | None => VUndefined end]) ;;
  act (APrompt "Accept? [y/n]") ;;
  let input := w_prompt w in
  (if negb (bool_decide (input = Some "y")) then
     act (ALog [VStr "Aborting"]) ;;
     (match sas with Some _ => act AMismatch | None => ret tt end) ;;
     exit 0
   else
     (match sas with
      | Some _ => await AConfirm (w_confirm w)
      | None => ret tt
      end) ;;
     act (ALog [VStr "Accepted"])) ;;
  await AAwaitVerify (w_verify w).

Definition isMessage (event : MatrixEvent) : bool :=
  String.eqb (ev_type event) (sdk_RoomMessage w)
  || String.eqb (ev_type event) (sdk_RoomMessageEncrypted w).

(** [client.decryptEventIfNeeded(event)]: an encrypted event that holds no
    decrypted content yet is decrypted and keeps the result. *)
Definition decryptEventIfNeeded (event : MatrixEvent) : M unit :=
  λ s,
    if String.eqb (ev_type event) (sdk_RoomMessageEncrypted w)
       && bool_decide (st_clear s !! ev_id event = None)
    then {| outcome := Return tt;
            final := {| st_localStorage := st_localStorage s;
                        st_clear := <[ev_id event := w_decrypt w event]>
                                      (st_clear s) |};
            trace := [ADecrypt (ev_id event)] |}
    else ret tt s.

(** [event.getContent()]: the decrypted content once there is one, the
    content as received otherwise. *)
Definition getContent (event : MatrixEvent) : M Content :=
  λ s, ret (default (ev_wire event) (st_clear s !! ev_id event)) s.

(** main.ts 197-215, the [RoomEvent.Timeline] listener. *)
Definition timelineHandler (event : MatrixEvent) : M unit :=
  if negb (String.eqb (ev_type event) (sdk_RoomMessage w))
     && negb (String.eqb (ev_type event) (sdk_RoomMessageEncrypted w))
  then ret tt
  else
    decryptEventIfNeeded event ;;
    logged <- getContent event ;;
    act (ALogContent (ev_id event) logged) ;;
    content <- getContent event ;;
    if bool_decide (content !! "msgtype" = Some (sdk_MsgType_Text w)) then
      act (ALog [match content !! "body" with
                 | Some b => VStr b
                 | None => VUndefined
                 end])
    else ret tt.

(** main.ts 219-231, the callback of [client.scrollback(_).then]. *)
Definition scrollbackCallback (emilRoom : Room) : M unit :=
  forEach (room_events emilRoom) (λ event,
    if String.eqb (ev_type event) (sdk_RoomMessage w)
       || String.eqb (ev_type event) (sdk_RoomMessageEncrypted w)
    then
      content <- getContent event ;;
      act (ALogContent (ev_id event) content)
    else ret tt).

(** [client.scrollback(room, limit)], main.ts 219.  The non-null assertion
    of line 217 is erased at run time, so [room] may be undefined; the SDK
    reads fields of [room], which is a TypeError at the call.  With a room
    the call returns a promise, whose callback [eventLoop] runs. *)
Definition scrollback (room : option Room) (limit : Z) : M unit :=
  act (AScrollback room limit) ;;
  match room with
  | Some _ => ret tt
  | None => throw {| err_class := "TypeError";
                     err_message := "room is undefined" |}
  end.

(** main.ts 154-219: the top-level script up to the [scrollback] call. *)
Definition main : M unit :=
  client <- start {| pl_baseUrl := "https://matrix.org";
                     pl_userId := env_MATRIX_USER w;
                     pl_password := env_MATRIX_PASSWORD w |} ;;
  act (ALog [VStr "-----------\n\n CRYPTO BOOTSTRAPPING\n\n-----------"]) ;;
  await ACheckKeyBackupAndEnable (w_checkKeyBackupAndEnable w 0%nat) ;;
  verified <- await (AGetUserVerificationStatus
                       (tl_userId (client_opts client)))
                    (w_isVerified w) ;;
  act (ALog [VStr "OWN verify status:"; VStatus verified; VBool verified]) ;;
  (if negb verified then verification else ret tt) ;;
  await ACheckKeyBackupAndEnable (w_checkKeyBackupAndEnable w 1%nat) ;;
  act AOnTimeline ;;
  act AGetRooms ;;
  let emilroom :=
    List.find (λ r, String.eqb (room_name r) "Emil") (w_rooms w) in
  scrollback emilroom 100.

(** What reaches the program once the script has run: a timeline event
    fires the listener, the scrollback promise resolves with the room.  The
    listener is asynchronous; each of its calls is run to completion here
    before the next arrival is taken, which fixes how the log lines of
    overlapping calls interleave but not which lines are logged. *)
Inductive Arrival :=
| Timeline (event : MatrixEvent)
| ScrollbackResolved (emilRoom : Room).

Definition deliver (a : Arrival) : M unit :=
  match a with
  | Timeline event => timelineHandler event
  | ScrollbackResolved emilRoom => scrollbackCallback emilRoom
  end.

Definition eventLoop (schedule : list Arrival) : M unit :=
  forEach schedule deliver.
End Program.

Arguments startWithToken : simpl never.
Arguments getTokenLogin : simpl never.
Arguments start : simpl never.
Arguments pollPhase : simpl never.

(** ** Vocabulary of the statements *)

(** *** Room ordering *)

(** Timestamp of the last event of a room, if it has one. *)
Definition lastTs (r : Room) : option Z := ev_ts <$> last (room_events r).



(** A room without events. *)
Definition no_events (r : Room) : bool :=
  match lastTs r with Some _ => false | None => true end.

(** *** Session manager *)

(** The token login [start] builds from a stored or a fresh pair. *)
Definition tokenLoginOf (p : PasswordLogin) (tok dev : string) : TokenLogin :=
  {| tl_baseUrl := pl_baseUrl p; tl_userId := pl_userId p;
     tl_accessToken := tok; tl_deviceId := dev |}.

Definition is_setItem (a : Action) : bool :=
  match a with ASetItem _ _ => true | _ => false end.

Definition is_login (a : Action) : bool :=
  match a with ACreateLoginClient _ | ALogin _ _ => true | _ => false end.

(** Some entry of the pair is absent: [getItem] yields [null] for it. *)
Definition missing_entry (p : PasswordLogin) (s : State) : Prop :=
  st_localStorage s !! tokenKey (pl_userId p) = None
  ∨ st_localStorage s !! deviceKey (pl_userId p) = None.

(** The state once both entries have been written. *)
Definition stored_pair (p : PasswordLogin) (tok dev : string) (s : State)
  : State :=
  {| st_localStorage :=
       <[deviceKey (pl_userId p) := dev]>
         (<[tokenKey (pl_userId p) := tok]> (st_localStorage s));
     st_clear := st_clear s |}.

(** The store after a trace: only [setItem] calls change it. *)
Definition replay (tr : list Action) (ls : gmap string string)
  : gmap string string :=
  foldl (λ m a, match a with ASetItem k v => <[k:=v]> m | _ => m end) ls tr.

(** The store as it stands after the first [n] calls of a run. *)
Definition storeAfter (n : nat) (tr : list Action) (ls : gmap string string)
  : gmap string string :=
  replay (take n tr) ls.

(** C3 as stated: at every point of a run of [start], the two entries are
    either both still as they were before the run, or both hold the pair the
    login issued. *)
Definition writes_pair_atomically (w : World) (p : PasswordLogin) (s : State)
  : Prop :=
  ∀ n,
    let before := st_localStorage s in
    let now := storeAfter n (trace (start w p s)) before in
    (now !! tokenKey (pl_userId p) = before !! tokenKey (pl_userId p)
     ∧ now !! deviceKey (pl_userId p) = before !! deviceKey (pl_userId p))
    ∨ (∃ tok dev, w_login w p = Resolved (tok, dev)
         ∧ now !! tokenKey (pl_userId p) = Some tok
         ∧ now !! deviceKey (pl_userId p) = Some dev).

(** C10 as stated: a run of [start] that finds exactly one of the two
    entries stored writes both. *)
Definition overwrites_half_pair (w : World) (p : PasswordLogin) (s : State)
  : Prop :=
  (st_localStorage s !! tokenKey (pl_userId p) = None
   ∧ is_Some (st_localStorage s !! deviceKey (pl_userId p)))
  ∨ (is_Some (st_localStorage s !! tokenKey (pl_userId p))
     ∧ st_localStorage s !! deviceKey (pl_userId p) = None) →
  ∃ tok dev,
    ASetItem (tokenKey (pl_userId p)) tok ∈ trace (start w p s)
    ∧ ASetItem (deviceKey (pl_userId p)) dev ∈ trace (start w p s).

(** *** Timeline pipeline *)

(** The body of the [forEach] of the scrollback callback. *)
Definition scanEvent (w : World) (event : MatrixEvent) : M unit :=
  if String.eqb (ev_type event) (sdk_RoomMessage w)
     || String.eqb (ev_type event) (sdk_RoomMessageEncrypted w)
  then
    content <- getContent event ;;
    act (ALogContent (ev_id event) content)
  else ret tt.

Definition is_decrypt (a : Action) : bool :=
  match a with ADecrypt _ => true | _ => false end.

Definition logs_content (eid : string) (a : Action) : bool :=
  match a with
  | ALogContent ev _ => String.eqb ev eid
  | _ => false
  end.

(** Number of times the content of event [eid] is logged in a trace. *)
Definition dispatches (eid : string) (tr : list Action) : nat :=
  length (List.filter (logs_content eid) tr).

(** A message event with id [eid], counted as 1 or 0. *)
Definition message_with_id (w : World) (eid : string) (e : MatrixEvent) : nat :=
  if isMessage w e && String.eqb (ev_id e) eid then 1%nat else 0%nat.

Definition notified (w : World) (eid : string) (a : Arrival) : nat :=
  match a with
  | Timeline e => message_with_id w eid e
  | ScrollbackResolved _ => 0%nat
  end.

Definition scanned (w : World) (eid : string) (a : Arrival) : nat :=
  match a with
  | Timeline _ => 0%nat
  | ScrollbackResolved r => sum_list (message_with_id w eid <$> room_events r)
  end.

Definition live_ids (schedule : list Arrival) : list string :=
  omap (λ a, match a with Timeline e => Some (ev_id e) | _ => None end)
       schedule.

Definition scans (schedule : list Arrival) : list Room :=
  omap (λ a, match a with ScrollbackResolved r => Some r | _ => None end)
       schedule.

(** A run of the consumers as the SDK produces it: no event is notified
    twice, the single scrollback promise resolves at most once, and the
    timeline it resolves with holds no event twice. *)
Definition sdk_schedule (schedule : list Arrival) : Prop :=
  NoDup (live_ids schedule)
  ∧ (length (scans schedule) <= 1)%nat
  ∧ Forall (λ r, NoDup (ev_id <$> room_events r)) (scans schedule).

(** C5 as stated. *)
Definition dispatched_at_most_once (w : World) (schedule : list Arrival)
    (s : State) : Prop :=
  ∀ eid, (dispatches eid (trace (eventLoop w schedule s)) <= 1)%nat.

(** *** Top-level script *)

(** The login the script passes to [start]. *)
Definition env_login (w : World) : PasswordLogin :=
  {| pl_baseUrl := "https://matrix.org"; pl_userId := env_MATRIX_USER w;
     pl_password := env_MATRIX_PASSWORD w |}.

(** Calls made by [start]. *)
Definition session_action (a : Action) : bool :=
  match a with
  | ACreateLoginClient _ | ALogin _ _ | AStopLoginClient | ASetItem _ _
  | ACreateClient _ | AInitRustCrypto | AStartClient _ | AOnceSync => true
  | _ => false
  end.

(** Calls made by the polling loop. *)
Definition poll_action (a : Action) : bool :=
  match a with
  | ASleep _ | ALog _ => true
  | _ => false
  end.

Definition is_backup (a : Action) : bool :=
  match a with ACheckKeyBackupAndEnable => true | _ => false end.

(** Number of [checkKeyBackupAndEnable] calls in a trace. *)
Definition backups (tr : list Action) : nat :=
  length (List.filter is_backup tr).

(** The calls of the verification handshake and of the key backup. *)
Definition protocol_step (a : Action) : bool :=
  match a with
  | ACheckKeyBackupAndEnable | AVerify | AConfirm | AMismatch
  | AAwaitVerify => true
  | _ => false
  end.

(** A trace restricted to those calls, in order. *)
Definition protocol (tr : list Action) : list Action :=
  List.filter protocol_step tr.

Definition findEmil (w : World) : option Room :=
  List.find (λ r, String.eqb (room_name r) "Emil") (w_rooms w).

(** The error [startWithToken] throws on a failed sync. *)
Definition sync_failed : JsError :=
  {| err_class := "Error"; err_message := "Sync failed." |}.

(** C7 as stated: in a run in which [verify] was called and which goes on
    to the second key-backup call or exits, the [verify] promise has been
    awaited and so has [confirm] or [mismatch]. *)
Definition verification_settled (w : World) (s : State) : Prop :=
  let r := main w s in
  AVerify ∈ trace r →
  backups (trace r) = 2%nat ∨ (∃ c, outcome r = Exit c) →
  AAwaitVerify ∈ trace r ∧ (AConfirm ∈ trace r ∨ AMismatch ∈ trace r).

(** C8 as stated: a rejected key-backup call that the run has made does
    not end the run with that rejection, and the run goes on after it. *)
Definition backup_failure_tolerated (w : World) (s : State) : Prop :=
  let r := main w s in
  ∀ n e, w_checkKeyBackupAndEnable w n = Rejected e →
         (n < backups (trace r))%nat →
         outcome r ≠ Throw e
         ∧ last (trace r) ≠ Some ACheckKeyBackupAndEnable.

(** C9 as stated: when the lookup is reached and finds no room named
    "Emil", the script ends with an error of class [RoomNotFound]. *)
Definition reports_RoomNotFound (w : World) (s : State) : Prop :=
  let r := main w s in
  AGetRooms ∈ trace r →
  findEmil w = None →
  ∃ msg, outcome r = Throw {| err_class := "RoomNotFound";
                              err_message := msg |}.

(** ** Sample data *)

(** An encrypted message of room "Emil". *)
Definition sample_event : MatrixEvent :=
  {| ev_id := "$e1"; ev_type := "m.room.encrypted"; ev_ts := 150;
     ev_wire := {[ "ciphertext" := "AwgAEnAC" ]} |}.

Definition sample_room : Room :=
  {| room_id := "!emil"; room_name := "Emil"; room_events := [sample_event] |}.

Definition room_at (rid : string) (ts : Z) : Room :=
  {| room_id := rid; room_name := rid;
     room_events := [{| ev_id := "$" +:+ rid; ev_type := "m.room.message";
                        ev_ts := ts; ev_wire := ∅ |}] |}.

(** A world in which everything succeeds: the user is not verified yet, the
    request reaches [Started] after two seconds. *)
Definition sample_world_with (prompt : option string)
    (backup : nat → Settled unit) (rooms : list Room) : World := {|
  sdk_RoomMessage := "m.room.message";
  sdk_RoomMessageEncrypted := "m.room.encrypted";
  sdk_MsgType_Text := "m.text";
  sdk_VerificationPhase_Started := 4;
  env_MATRIX_USER := "@emil:matrix.org";
  env_MATRIX_PASSWORD := "secret";
  w_login := λ _, Resolved ("abc", "DEV1");
  w_initRustCrypto := Resolved tt;
  w_startClient := Resolved tt;
  w_sync := "PREPARED";
  w_checkKeyBackupAndEnable := backup;
  w_isVerified := Resolved false;
  w_requestOwnUserVerification := Resolved tt;
  w_phase := 2;
  w_phases := [3; 4];
  w_verifier := true;
  w_verify := Resolved tt;
  w_sas := Some "cat dog";
  w_prompt := prompt;
  w_confirm := Resolved tt;
  w_rooms := rooms;
  w_decrypt := λ _, {[ "msgtype" := "m.text"; "body" := "hello" ]}
|}.

(** The user answers "y". *)
Definition sample_world : World :=
  sample_world_with (Some "y") (λ _, Resolved tt) [sample_room].

(** The user answers "n". *)
Definition reject_world : World :=
  sample_world_with (Some "n") (λ _, Resolved tt) [sample_room].

Definition backup_down : JsError :=
  {| err_class := "Error"; err_message := "backup unavailable" |}.

(** Every key-backup call is rejected. *)
Definition backup_down_world : World :=
  sample_world_with (Some "y") (λ _, Rejected backup_down) [sample_room].

(** The account has no room named "Emil". *)
Definition no_room_world : World :=
  sample_world_with (Some "y") (λ _, Resolved tt) [].

Definition sample_login : PasswordLogin :=
  {| pl_baseUrl := "https://matrix.org"; pl_userId := "@emil:matrix.org";
     pl_password := "secret" |}.

Definition state_of (ls : gmap string string) : State :=
  {| st_localStorage := ls; st_clear := ∅ |}.

(** ** Vocabulary of the further properties *)

(** The calls of the verification handshake. *)
Definition handshake_step (a : Action) : bool :=
  match a with
  | ARequestOwnUserVerification | AVerify | AGetShowSasCallbacks | APrompt _
  | AMismatch | AConfirm | AAwaitVerify => true
  | _ => false
  end.

(** The calls of the key backup and of the handshake, and the registration
    of the listener. *)
Definition settling_step (a : Action) : bool :=
  match a with
  | ACheckKeyBackupAndEnable | AVerify | AConfirm | AMismatch
  | AAwaitVerify | AOnTimeline => true
  | _ => false
  end.

(** A trace restricted to those calls, in order. *)
Definition settling (tr : list Action) : list Action :=
  List.filter settling_step tr.

(** What the polling loop does for one observed phase. *)
Definition pollStep (ph : Z) : list Action :=
  [ASleep 1000; ALog [VStr "Pending"; VNum ph]].

(** A sample world by verification status, observed phases and presence of
    the verifier; everything else succeeds and the user answers "y". *)
Definition sample_world_verifying (verified : bool) (phases : list Z)
    (verifier : bool) : World := {|
  sdk_RoomMessage := "m.room.message";
  sdk_RoomMessageEncrypted := "m.room.encrypted";
  sdk_MsgType_Text := "m.text";
  sdk_VerificationPhase_Started := 4;
  env_MATRIX_USER := "@emil:matrix.org";
  env_MATRIX_PASSWORD := "secret";
  w_login := λ _, Resolved ("abc", "DEV1");
  w_initRustCrypto := Resolved tt;
  w_startClient := Resolved tt;
  w_sync := "PREPARED";
  w_checkKeyBackupAndEnable := λ _, Resolved tt;
  w_isVerified := Resolved verified;
  w_requestOwnUserVerification := Resolved tt;
  w_phase := 2;
  w_phases := phases;
  w_verifier := verifier;
  w_verify := Resolved tt;
  w_sas := Some "cat dog";
  w_prompt := Some "y";
  w_confirm := Resolved tt;
  w_rooms := [sample_room];
  w_decrypt := λ _, {[ "msgtype" := "m.text"; "body" := "hello" ]}
|}.

Definition login_rejected : JsError :=
  {| err_class := "MatrixError"; err_message := "M_FORBIDDEN" |}.

(** The homeserver rejects the password login. *)
Definition login_down_world : World := {|
  sdk_RoomMessage := "m.room.message";
  sdk_RoomMessageEncrypted := "m.room.encrypted";
  sdk_MsgType_Text := "m.text";
  sdk_VerificationPhase_Started := 4;
  env_MATRIX_USER := "@emil:matrix.org";
  env_MATRIX_PASSWORD := "secret";
  w_login := λ _, Rejected login_rejected;
  w_initRustCrypto := Resolved tt;
  w_startClient := Resolved tt;
  w_sync := "PREPARED";
  w_checkKeyBackupAndEnable := λ _, Resolved tt;
  w_isVerified := Resolved false;
  w_requestOwnUserVerification := Resolved tt;
  w_phase := 2;
  w_phases := [3; 4];
  w_verifier := true;
  w_verify := Resolved tt;
  w_sas := Some "cat dog";
  w_prompt := Some "y";
  w_confirm := Resolved tt;
  w_rooms := [sample_room];
  w_decrypt := λ _, {[ "msgtype" := "m.text"; "body" := "hello" ]}
|}.

(** ** Room ordering: lemmas *)

Section SortMerge.
Context {A : Type} (cmp : A → A → Z).

Lemma sort_merge_nil_r l : sort_merge cmp l [] = l.
Proof. by destruct l. Qed.

Lemma sort_merge_cons x l y r :
  sort_merge cmp (x :: l) (y :: r)
  = if cmp y x <? 0 then y :: sort_merge cmp (x :: l) r
    else x :: sort_merge cmp l (y :: r).
Proof. done. Qed.

Lemma sort_merge_perm l r : sort_merge cmp l r ≡ₚ l ++ r.
Proof.
  revert r. induction l as [|x l IHl]; intros r; [done|].
  induction r as [|y r IHr]; [by rewrite sort_merge_nil_r, app_nil_r|].
  rewrite sort_merge_cons. destruct (cmp y x <? 0).
  - rewrite IHr. by rewrite <- Permutation_middle.
  - by rewrite IHl.
Qed.

Lemma array_sort_snoc l x :
  array_sort cmp (l ++ [x]) = sort_merge cmp (array_sort cmp l) [x].
Proof. unfold array_sort. by rewrite foldl_app. Qed.

(** The insertion sort is one of the sorts built on the merge step. *)
Lemma array_sort_Sorts l : Sorts cmp l (array_sort cmp l).
Proof.
  induction l as [|x l IH] using rev_ind; [constructor|].
  rewrite array_sort_snoc. constructor; [done|constructor].
Qed.

Lemma Sorts_perm l out : Sorts cmp l out → out ≡ₚ l.
Proof.
  induction 1 as [|x|l1 l2 o1 o2 _ IH1 _ IH2]; [done..|].
  by rewrite sort_merge_perm, IH1, IH2.
Qed.

(** What the callback has to satisfy for the output to be ordered: a
    non-negative answer is matched by a non-positive answer to the converse
    call, and non-positive answers chain. *)
Hypothesis cmp_flip : ∀ x y, 0 <= cmp x y → cmp y x <= 0.
Hypothesis cmp_chain : ∀ x y z, cmp x y <= 0 → cmp y z <= 0 → cmp x z <= 0.

Lemma sort_merge_sorted l r :
  StronglySorted (λ a b, cmp a b <= 0) l →
  StronglySorted (λ a b, cmp a b <= 0) r →
  StronglySorted (λ a b, cmp a b <= 0) (sort_merge cmp l r).
Proof.
  revert r. induction l as [|x l IHl]; intros r Hl Hr; [done|].
  induction r as [|y r IHr]; [by rewrite sort_merge_nil_r|].
  apply StronglySorted_cons in Hl as Hl'. destruct Hl' as [Hx Hl'].
  apply StronglySorted_cons in Hr as Hr'. destruct Hr' as [Hy Hr'].
  rewrite sort_merge_cons. destruct (cmp y x <? 0) eqn:E.
  - apply Z.ltb_lt in E. constructor; [by apply IHr|].
    rewrite sort_merge_perm. apply Forall_app. split; [|done].
    constructor; [lia|]. eapply Forall_impl; [exact Hx|].
    intros z Hz. eapply cmp_chain; [|exact Hz]. lia.
  - apply Z.ltb_ge in E. constructor; [by apply IHl|].
    rewrite sort_merge_perm. apply Forall_app. split; [done|].
    constructor; [by apply cmp_flip|]. eapply Forall_impl; [exact Hy|].
    intros z Hz. eapply cmp_chain; [|exact Hz]. by apply cmp_flip.
Qed.

Lemma Sorts_sorted l out :
  Sorts cmp l out → StronglySorted (λ a b, cmp a b <= 0) out.
Proof.
  induction 1 as [|x|l1 l2 o1 o2 _ IH1 _ IH2];
    [constructor|repeat constructor|by apply sort_merge_sorted].
Qed.
End SortMerge.

Lemma filter_nowhere {A} (f : A → bool) (l : list A) :
  (∀ z, In z l → f z = false) → List.filter f l = [].
Proof.
  induction l as [|x l IH]; intros H; [done|].
  cbn [List.filter]. rewrite (H x) by by left.
  apply IH. intros z Hz. apply H. by right.
Qed.

Lemma StronglySorted_lookup {A} (R : A → A → Prop) (l : list A) i j a b :
  StronglySorted R l → l !! i = Some a → l !! j = Some b → (i < j)%nat → R a b.
Proof.
  intros Hs. revert i j. induction Hs as [|x l Hl IH Hx]; intros i j Hi Hj Hij.
  - by rewrite lookup_nil in Hi.
  - destruct j as [|j]; [lia|]. simpl in Hj.
    destruct i as [|i]; simpl in Hi.
    + injection Hi as <-. rewrite Forall_forall in Hx.
      apply Hx. by eapply list_elem_of_lookup_2.
    + eapply IH; eauto. lia.
Qed.

Lemma compareRooms_flip x y : 0 <= compareRooms x y → compareRooms y x <= 0.
Proof.
  unfold compareRooms.
  destruct (last (room_events x)) as [a|], (last (room_events y)) as [b|];
    try lia.
  destruct (ev_ts a =? ev_ts b) eqn:E1, (ev_ts a >? ev_ts b) eqn:E2,
    (ev_ts b =? ev_ts a) eqn:E3, (ev_ts b >? ev_ts a) eqn:E4; lia.
Qed.

Lemma compareRooms_chain x y z :
  compareRooms x y <= 0 → compareRooms y z <= 0 → compareRooms x z <= 0.
Proof.
  unfold compareRooms.
  destruct (last (room_events x)) as [a|], (last (room_events y)) as [b|],
    (last (room_events z)) as [c|]; try lia.
  destruct (ev_ts a =? ev_ts b) eqn:E1, (ev_ts a >? ev_ts b) eqn:E2,
    (ev_ts b =? ev_ts c) eqn:E3, (ev_ts b >? ev_ts c) eqn:E4,
    (ev_ts a =? ev_ts c) eqn:E5, (ev_ts a >? ev_ts c) eqn:E6; lia.
Qed.

(** The order the callback finds between two rooms, read on their last
    timestamps. *)
Lemma compareRooms_le a b :
  compareRooms a b <= 0 ↔
  match lastTs a, lastTs b with
  | None, _ => True
  | Some _, None => False
  | Some x, Some y => x <= y
  end.
Proof.
  unfold compareRooms, lastTs.
  destruct (last (room_events a)) as [ea|], (last (room_events b)) as [eb|];
    simpl; try (split; (done || lia)).
  destruct (ev_ts ea =? ev_ts eb) eqn:E1, (ev_ts ea >? ev_ts eb) eqn:E2; lia.
Qed.

Lemma compareRooms_lt a b :
  compareRooms a b < 0 ↔
  match lastTs a, lastTs b with
  | None, _ => True
  | Some _, None => False
  | Some x, Some y => x < y
  end.
Proof.
  unfold compareRooms, lastTs.
  destruct (last (room_events a)) as [ea|], (last (room_events b)) as [eb|];
    simpl; try (split; (done || lia)).
  destruct (ev_ts ea =? ev_ts eb) eqn:E1, (ev_ts ea >? ev_ts eb) eqn:E2; lia.
Qed.

Lemma Sorts_compareRooms_sorted rooms out :
  Sorts compareRooms rooms out →
  StronglySorted (λ a b, compareRooms a b <= 0) out.
Proof.
  apply Sorts_sorted; [apply compareRooms_flip|apply compareRooms_chain].
Qed.

Lemma getRoomList_sorted rooms :
  StronglySorted (λ a b, compareRooms a b <= 0) (getRoomList rooms).
Proof. eapply Sorts_compareRooms_sorted, array_sort_Sorts. Qed.



(** Rooms without events: the callback answers -1 for such a room whatever
    it is compared with, so in a merge those of the later run go first. *)
Lemma sort_merge_no_events l r :
  StronglySorted (λ a b, compareRooms a b <= 0) r →
  List.filter no_events (sort_merge compareRooms l r)
  = List.filter no_events r ++ List.filter no_events l.
Proof.
  revert r. induction l as [|x l IHl]; intros r Hr; [by rewrite app_nil_r|].
  induction r as [|y r IHr]; [by rewrite sort_merge_nil_r|].
  apply StronglySorted_cons in Hr as Hr'. destruct Hr' as [Hy Hr'].
  rewrite sort_merge_cons. destruct (compareRooms y x <? 0) eqn:E.
  - cbn [List.filter]. rewrite IHr by done. cbn [List.filter].
    by destruct (no_events y).
  - apply Z.ltb_ge in E.
    assert (List.filter no_events (y :: r) = []) as Hnil.
    { assert (lastTs y ≠ None) as Hyn.
      { intros Hn. assert (compareRooms y x < 0); [|lia].
        apply compareRooms_lt. by rewrite Hn. }
      apply filter_nowhere. intros z Hz.
      assert (compareRooms y z <= 0) as Hyz.
      { destruct Hz as [<-|Hz].
        - apply compareRooms_le. destruct (lastTs y); done || lia.
        - rewrite Forall_forall in Hy. by apply Hy, list_elem_of_In. }
      apply compareRooms_le in Hyz. unfold no_events.
      destruct (lastTs y), (lastTs z); done. }
    rewrite Hnil. change (List.filter no_events (x :: ?k))
      with (if no_events x then x :: List.filter no_events k
            else List.filter no_events k).
    rewrite (IHl (y :: r)), Hnil by done. by destruct (no_events x).
Qed.

Lemma Sorts_no_events rooms out :
  Sorts compareRooms rooms out →
  List.filter no_events out = rev (List.filter no_events rooms).
Proof.
  induction 1 as [|x|l1 l2 o1 o2 _ IH1 H2 IH2];
    [done|cbn; by destruct (no_events x)|].
  rewrite sort_merge_no_events by by eapply Sorts_compareRooms_sorted.
  by rewrite IH1, IH2, List.filter_app, rev_app_distr.
Qed.







(** Rooms without events come out in reverse input order (for two such
    rooms [e] and [f], [[e; f]] is returned as [[f; e]]). *)
Lemma getRoomList_no_events_reversed rooms :
  List.filter no_events (getRoomList rooms)
  = rev (List.filter no_events rooms).
Proof. apply Sorts_no_events, array_sort_Sorts. Qed.

(** ** Session manager: lemmas *)

Ltac in_list := apply list_elem_of_In; simpl; tauto.

Lemma tokenKey_ne_deviceKey u : tokenKey u ≠ deviceKey u.
Proof. unfold tokenKey, deviceKey. simpl. discriminate. Qed.

Lemma bind_getItem {B} key (f : option string → M B) s :
  bind (getItem key) f s = f (st_localStorage s !! key) s.
Proof. unfold bind, getItem. cbn. by destruct (f _ s). Qed.

Lemma bind_Return {A B} (m : M A) (k : A → M B) s a :
  outcome (m s) = Return a →
  outcome (bind m k s) = outcome (k a (final (m s)))
  ∧ final (bind m k s) = final (k a (final (m s)))
  ∧ trace (bind m k s) = trace (m s) ++ trace (k a (final (m s))).
Proof.
  unfold bind. destruct (m s) as [o f t]. cbn. intros ->.
  by destruct (k a f).
Qed.

Lemma startWithToken_trace w t s :
  ∃ rest, trace (startWithToken w t s) = ACreateClient t :: rest
          ∧ Forall (λ a, a = AInitRustCrypto ∨ a = AStartClient 5
                         ∨ a = AOnceSync) rest
          ∧ final (startWithToken w t s) = s.
Proof.
  unfold startWithToken, bind, act, await, throw, ret.
  destruct (w_initRustCrypto w), (w_startClient w),
    (negb (String.eqb (w_sync w) "PREPARED")); simpl;
    eexists; (split; [reflexivity|]); (split; [|done]);
    repeat first [apply Forall_nil_2 | apply Forall_cons_2; [naive_solver|]].
Qed.

Lemma startWithToken_outcome w t s c :
  outcome (startWithToken w t s) = Return c → client_opts c = t.
Proof.
  unfold startWithToken, bind, act, await, throw, ret.
  destruct (w_initRustCrypto w), (w_startClient w),
    (negb (String.eqb (w_sync w) "PREPARED")); simpl; try done.
  by intros [= <-].
Qed.

Lemma startWithToken_ends w t s :
  (∃ c, outcome (startWithToken w t s) = Return c)
  ∨ (∃ e, outcome (startWithToken w t s) = Throw e).
Proof.
  unfold startWithToken, bind, act, await, throw, ret.
  destruct (w_initRustCrypto w), (w_startClient w),
    (negb (String.eqb (w_sync w) "PREPARED")); cbn; eauto.
Qed.

Lemma startWithToken_no_setItem w t s :
  Forall (λ a, is_setItem a = false) (trace (startWithToken w t s)).
Proof.
  destruct (startWithToken_trace w t s) as (rest & -> & Hrest & _).
  constructor; [done|].
  eapply Forall_impl; [exact Hrest|]. by intros a [->|[->| ->]].
Qed.

Lemma start_unfold w p s :
  start w p s
  = bind match st_localStorage s !! tokenKey (pl_userId p),
               st_localStorage s !! deviceKey (pl_userId p) with
         | Some accessToken, Some deviceId =>
           ret (tokenLoginOf p accessToken deviceId)
         | _, _ =>
           tokenLogin <- getTokenLogin w p ;;
           setItem (tokenKey (pl_userId p)) (tl_accessToken tokenLogin) ;;
           setItem (deviceKey (pl_userId p)) (tl_deviceId tokenLogin) ;;
           ret tokenLogin
         end
         (λ tokenLogin, client <- startWithToken w tokenLogin ;; ret client) s.
Proof. unfold start. by rewrite !bind_getItem. Qed.

(** The fast path: both entries are stored. *)
Lemma start_fast_path w p s tok dev :
  st_localStorage s !! tokenKey (pl_userId p) = Some tok →
  st_localStorage s !! deviceKey (pl_userId p) = Some dev →
  start w p s = bind (startWithToken w (tokenLoginOf p tok dev)) ret s.
Proof.
  intros Ht Hd. rewrite start_unfold, Ht, Hd. unfold bind, ret. cbn.
  by destruct (startWithToken w (tokenLoginOf p tok dev) s) as [[] ? ?].
Qed.

(** The password-login path: some entry is missing. *)
Lemma start_fresh_unfold w p s :
  missing_entry p s →
  start w p s
  = bind (tokenLogin <- getTokenLogin w p ;;
          setItem (tokenKey (pl_userId p)) (tl_accessToken tokenLogin) ;;
          setItem (deviceKey (pl_userId p)) (tl_deviceId tokenLogin) ;;
          ret tokenLogin)
         (λ tokenLogin, client <- startWithToken w tokenLogin ;; ret client) s.
Proof.
  intros Hmiss. rewrite start_unfold.
  destruct Hmiss as [-> | ->]; [done|].
  by destruct (st_localStorage s !! tokenKey (pl_userId p)).
Qed.

Lemma start_fresh_resolved w p s tok dev :
  missing_entry p s →
  w_login w p = Resolved (tok, dev) →
  start w p s
  = let r := startWithToken w (tokenLoginOf p tok dev)
                            (stored_pair p tok dev s) in
    {| outcome := outcome r; final := final r;
       trace := [ACreateLoginClient (pl_baseUrl p);
                 ALogin (pl_userId p) (pl_password p);
                 AStopLoginClient;
                 ASetItem (tokenKey (pl_userId p)) tok;
                 ASetItem (deviceKey (pl_userId p)) dev] ++ trace r |}.
Proof.
  intros Hmiss Hlogin. rewrite start_fresh_unfold by done.
  unfold getTokenLogin, bind, act, await, setItem, ret. rewrite Hlogin. cbn.
  fold (tokenLoginOf p tok dev). fold (stored_pair p tok dev s).
  by destruct (startWithToken w (tokenLoginOf p tok dev)
                 (stored_pair p tok dev s))
    as [[] ? ?]; cbn; rewrite ?app_nil_r.
Qed.

Lemma start_fresh_rejected w p s e :
  missing_entry p s →
  w_login w p = Rejected e →
  start w p s
  = {| outcome := Throw e; final := s;
       trace := [ACreateLoginClient (pl_baseUrl p);
                 ALogin (pl_userId p) (pl_password p)] |}.
Proof.
  intros Hmiss Hlogin. rewrite start_fresh_unfold by done.
  unfold getTokenLogin, bind, act, await. by rewrite Hlogin.
Qed.

Lemma stored_pair_lookup p tok dev s :
  st_localStorage (stored_pair p tok dev s) !! tokenKey (pl_userId p) = Some tok
  ∧ st_localStorage (stored_pair p tok dev s) !! deviceKey (pl_userId p)
    = Some dev.
Proof.
  unfold stored_pair. cbn. split.
  - rewrite lookup_insert_ne by (symmetry; apply tokenKey_ne_deviceKey).
    apply lookup_insert_eq.
  - apply lookup_insert_eq.
Qed.

Lemma replay_app (l1 l2 : list Action) (m : gmap string string) :
  replay (l1 ++ l2) m = replay l2 (replay l1 m).
Proof. apply foldl_app. Qed.

Lemma replay_no_setItem (l : list Action) (m : gmap string string) :
  Forall (λ a, is_setItem a = false) l → replay l m = m.
Proof.
  revert m. induction l as [|a l IH]; intros m HF; [done|].
  apply Forall_cons in HF as [Ha HF]. unfold replay in *. cbn.
  destruct a; try done; by apply IH.
Qed.

(** The store [start] leaves is the store its [setItem] calls build: the
    trace tells what the store holds at every point of the run. *)
Lemma start_store_is_replay w p s :
  st_localStorage (final (start w p s))
  = replay (trace (start w p s)) (st_localStorage s).
Proof.
  assert (∀ tok dev, missing_entry p s → w_login w p = Resolved (tok, dev) →
            st_localStorage (final (start w p s))
            = replay (trace (start w p s)) (st_localStorage s)) as Hres.
  { intros tok dev Hmiss Hl.
    rewrite (start_fresh_resolved w p s tok dev) by done.
    cbv zeta. cbn [final trace]. rewrite replay_app.
    destruct (startWithToken_trace w (tokenLoginOf p tok dev)
                (stored_pair p tok dev s)) as (_ & _ & _ & ->).
    by rewrite replay_no_setItem by apply startWithToken_no_setItem. }
  assert (∀ e, missing_entry p s → w_login w p = Rejected e →
            st_localStorage (final (start w p s))
            = replay (trace (start w p s)) (st_localStorage s)) as Hrej.
  { intros e Hmiss Hl. by rewrite (start_fresh_rejected w p s e) by done. }
  destruct (st_localStorage s !! tokenKey (pl_userId p)) as [tok|] eqn:Ht;
    [destruct (st_localStorage s !! deviceKey (pl_userId p)) as [dev|] eqn:Hd|].
  - rewrite (start_fast_path w p s tok dev Ht Hd).
    pose proof (startWithToken_no_setItem w (tokenLoginOf p tok dev) s) as HF.
    destruct (startWithToken_trace w (tokenLoginOf p tok dev) s)
      as (_ & _ & _ & Hfin).
    unfold bind, ret.
    destruct (startWithToken w (tokenLoginOf p tok dev) s) as [[] f t];
      cbn [outcome final trace] in *; subst f; rewrite ?app_nil_r;
      by rewrite replay_no_setItem.
  - destruct (w_login w p) as [[tok' dev']|e] eqn:Hl;
      [eapply Hres|eapply Hrej]; eauto; by right.
  - destruct (w_login w p) as [[tok' dev']|e] eqn:Hl;
      [eapply Hres|eapply Hrej]; eauto; by left.
Qed.

(** C2.  When the store holds both [token-<userId>] and [device-<userId>],
    [start] performs no password login (no login client is created, [login]
    is not called) and writes nothing; the first thing it does is to create
    the client with exactly the stored access token and device id, no client
    is created with anything else, the store is left as it is, and the
    client [start] returns is bound to that pair. *)
Theorem start_reuses_stored_pair w p s tok dev :
  st_localStorage s !! tokenKey (pl_userId p) = Some tok →
  st_localStorage s !! deviceKey (pl_userId p) = Some dev →
  let r := start w p s in
  Forall (λ a, is_login a = false ∧ is_setItem a = false) (trace r)
  ∧ head (trace r) = Some (ACreateClient (tokenLoginOf p tok dev))
  ∧ (∀ t, ACreateClient t ∈ trace r → t = tokenLoginOf p tok dev)
  ∧ final r = s
  ∧ (∀ c, outcome r = Return c → client_opts c = tokenLoginOf p tok dev).
Proof.
  intros Ht Hd r. subst r. rewrite (start_fast_path w p s tok dev Ht Hd).
  destruct (startWithToken_trace w (tokenLoginOf p tok dev) s)
    as (rest & Htr & Hrest & Hfin).
  pose proof (startWithToken_outcome w (tokenLoginOf p tok dev) s) as Hout.
  unfold bind, ret.
  destruct (startWithToken w (tokenLoginOf p tok dev) s) as [o f tr].
  simpl in *. subst tr f.
  assert (Forall (λ a, is_login a = false ∧ is_setItem a = false)
            (ACreateClient (tokenLoginOf p tok dev) :: rest)) as HF.
  { constructor; [done|]. eapply Forall_impl; [exact Hrest|].
    by intros a [->|[->| ->]]. }
  assert (∀ t, ACreateClient t ∈ ACreateClient (tokenLoginOf p tok dev) :: rest
               → t = tokenLoginOf p tok dev) as HC.
  { intros t [[= ->]|Hin]%elem_of_cons; [done|].
    rewrite Forall_forall in Hrest.
    by destruct (Hrest _ Hin) as [?|[?|?]]. }
  destruct o; simpl; rewrite ?app_nil_r; repeat split; auto; done.
Qed.

Lemma start_reuses_stored_pair_witness :
  let s := state_of {[ "token-@emil:matrix.org" := "tok0";
                       "device-@emil:matrix.org" := "DEV0" ]} in
  trace (start sample_world sample_login s)
  = [ACreateClient (tokenLoginOf sample_login "tok0" "DEV0");
     AInitRustCrypto; AStartClient 5; AOnceSync]
  ∧ final (start sample_world sample_login s) = s.
Proof.
  intros s.
  destruct (start_reuses_stored_pair sample_world sample_login s "tok0" "DEV0")
    as (_ & _ & _ & Hfin & _); [reflexivity|reflexivity|].
  split; [reflexivity|exact Hfin].
Defined.

(** C10, counterexample.  Only the device entry is stored and the
    homeserver rejects the login: [start] takes the password-login path and
    throws, having written neither entry. *)
Lemma start_login_rejected_writes_nothing :
  let s := state_of {[ "device-@emil:matrix.org" := "OLD" ]} in
  ¬ overwrites_half_pair login_down_world sample_login s
  ∧ trace (start login_down_world sample_login s)
    = [ACreateLoginClient "https://matrix.org";
       ALogin "@emil:matrix.org" "secret"]
  ∧ outcome (start login_down_world sample_login s) = Throw login_rejected
  ∧ final (start login_down_world sample_login s) = s.
Proof.
  intros s.
  assert (trace (start login_down_world sample_login s)
          = [ACreateLoginClient "https://matrix.org";
             ALogin "@emil:matrix.org" "secret"]) as Htr
    by (vm_compute; reflexivity).
  split; [|split; [exact Htr|split; vm_compute; reflexivity]].
  intros Hov. destruct Hov as (tok & dev & Ht & _).
  - left. split; [reflexivity|]. exists "OLD". reflexivity.
  - rewrite Htr in Ht. apply list_elem_of_In in Ht. simpl in Ht.
    destruct Ht as [Ht|[Ht|[]]]; discriminate Ht.
Qed.

(** C10, amended.  When exactly one of [token-<userId>] and [device-<userId>] is
    stored, [start] takes the password-login path: its first calls are the
    creation of the login client and [login].  When the login succeeds both
    entries are overwritten with the issued pair and the client is created
    with that pair and with nothing else; when it fails, [start] throws with
    the store untouched and no client created.  In no case is a client
    created from the stored half. *)
Theorem start_half_stored_pair w p s :
  (st_localStorage s !! tokenKey (pl_userId p) = None
   ∧ is_Some (st_localStorage s !! deviceKey (pl_userId p)))
  ∨ (is_Some (st_localStorage s !! tokenKey (pl_userId p))
     ∧ st_localStorage s !! deviceKey (pl_userId p) = None) →
  let r := start w p s in
  (∃ rest, trace r = ACreateLoginClient (pl_baseUrl p)
                     :: ALogin (pl_userId p) (pl_password p) :: rest)
  ∧ (∀ tok dev, w_login w p = Resolved (tok, dev) →
       st_localStorage (final r) !! tokenKey (pl_userId p) = Some tok
       ∧ st_localStorage (final r) !! deviceKey (pl_userId p) = Some dev
       ∧ ASetItem (tokenKey (pl_userId p)) tok ∈ trace r
       ∧ ASetItem (deviceKey (pl_userId p)) dev ∈ trace r
       ∧ ACreateClient (tokenLoginOf p tok dev) ∈ trace r
       ∧ (∀ t, ACreateClient t ∈ trace r → t = tokenLoginOf p tok dev))
  ∧ (∀ e, w_login w p = Rejected e →
       outcome r = Throw e ∧ final r = s
       ∧ ∀ t, ¬ (ACreateClient t ∈ trace r)).
Proof.
  intros Hhalf r.
  assert (missing_entry p s) as Hmiss.
  { destruct Hhalf as [[? _]|[_ ?]]; [by left|by right]. }
  subst r. split; [|split].
  - destruct (w_login w p) as [[tok dev]|e] eqn:Hlogin.
    + rewrite (start_fresh_resolved w p s tok dev Hmiss Hlogin). cbn. eauto.
    + rewrite (start_fresh_rejected w p s e Hmiss Hlogin). cbn. eauto.
  - intros tok dev Hlogin.
    rewrite (start_fresh_resolved w p s tok dev Hmiss Hlogin). cbn.
    destruct (startWithToken_trace w (tokenLoginOf p tok dev)
                (stored_pair p tok dev s)) as (rest & -> & Hrest & ->).
    destruct (stored_pair_lookup p tok dev s) as [Ht Hd].
    repeat split; [done|done|in_list|in_list|in_list|].
    intros t Hin. rewrite !elem_of_cons in Hin.
    destruct Hin as [?|[?|[?|[?|[?|[[= ->]|Hin]]]]]]; try done.
    rewrite Forall_forall in Hrest.
    by destruct (Hrest _ Hin) as [?|[?|?]].
  - intros e Hlogin.
    rewrite (start_fresh_rejected w p s e Hmiss Hlogin). cbn.
    repeat split. intros t Hin. rewrite !elem_of_cons, elem_of_nil in Hin.
    intuition discriminate.
Qed.

Lemma start_half_stored_pair_witness :
  let s := state_of {[ "device-@emil:matrix.org" := "OLD" ]} in
  let r := start sample_world sample_login s in
  st_localStorage (final r) !! "token-@emil:matrix.org" = Some "abc"
  ∧ st_localStorage (final r) !! "device-@emil:matrix.org" = Some "DEV1"
  ∧ ∀ t, ACreateClient t ∈ trace r → t = tokenLoginOf sample_login "abc" "DEV1".
Proof.
  intros s r.
  destruct (start_half_stored_pair sample_world sample_login s)
    as (_ & Hok & _).
  { left. split; [reflexivity|]. exists "OLD". reflexivity. }
  destruct (Hok "abc" "DEV1" eq_refl) as (Ht & Hd & _ & _ & _ & Hc).
  split; [exact Ht|]. split; [exact Hd|exact Hc].
Defined.

(** C3, counterexample.  With an empty store and a login that issues
    ("abc", "DEV1"), the store after the first four calls of [start] holds
    the token entry and no device entry. *)
Lemma start_pair_not_atomic :
  let s := state_of ∅ in
  ¬ writes_pair_atomically sample_world sample_login s
  ∧ storeAfter 4 (trace (start sample_world sample_login s)) (st_localStorage s)
    = {[ "token-@emil:matrix.org" := "abc" ]}.
Proof.
  intros s. split.
  - intros Hat. destruct (Hat 4%nat) as [[Ht _]|(tok & dev & _ & _ & Hd)].
    + vm_compute in Ht. discriminate.
    + vm_compute in Hd. discriminate.
  - vm_compute. reflexivity.
Qed.

(** C3, amended.  On the password-login path of [start] (an entry is
    missing and the login succeeds) the token entry and then the device
    entry are written by two consecutive [setItem] calls, right after the
    login client is stopped and before the client is created; nothing else
    is written, and from the second write on both entries hold the issued
    pair. *)
Theorem start_writes_token_then_device w p s tok dev :
  missing_entry p s →
  w_login w p = Resolved (tok, dev) →
  let r := start w p s in
  ∃ rest,
    trace r = [ACreateLoginClient (pl_baseUrl p);
               ALogin (pl_userId p) (pl_password p);
               AStopLoginClient;
               ASetItem (tokenKey (pl_userId p)) tok;
               ASetItem (deviceKey (pl_userId p)) dev;
               ACreateClient (tokenLoginOf p tok dev)] ++ rest
    ∧ Forall (λ a, is_setItem a = false) rest
    ∧ ∀ n, (5 <= n)%nat →
        storeAfter n (trace r) (st_localStorage s) !! tokenKey (pl_userId p)
        = Some tok
        ∧ storeAfter n (trace r) (st_localStorage s) !! deviceKey (pl_userId p)
          = Some dev.
Proof.
  intros Hmiss Hlogin r. subst r.
  rewrite (start_fresh_resolved w p s tok dev Hmiss Hlogin). cbn.
  destruct (startWithToken_trace w (tokenLoginOf p tok dev)
              (stored_pair p tok dev s)) as (rest & -> & Hrest & _).
  exists rest. split; [done|].
  assert (Forall (λ a, is_setItem a = false) rest) as Hno.
  { eapply Forall_impl; [exact Hrest|]. by intros a [->|[->| ->]]. }
  split; [done|].
  intros n Hn. do 5 (destruct n as [|n]; [lia|]).
  unfold storeAfter.
  change (take _ _)
    with ([ACreateLoginClient (pl_baseUrl p);
           ALogin (pl_userId p) (pl_password p);
           AStopLoginClient;
           ASetItem (tokenKey (pl_userId p)) tok;
           ASetItem (deviceKey (pl_userId p)) dev]
          ++ take n (ACreateClient (tokenLoginOf p tok dev) :: rest)).
  rewrite replay_app.
  rewrite (replay_no_setItem (take n _));
    [apply stored_pair_lookup|].
  apply Forall_take. by constructor.
Qed.

Lemma start_writes_token_then_device_witness :
  let s := state_of ∅ in
  ∃ rest,
    trace (start sample_world sample_login s)
    = [ACreateLoginClient "https://matrix.org";
       ALogin "@emil:matrix.org" "secret";
       AStopLoginClient;
       ASetItem "token-@emil:matrix.org" "abc";
       ASetItem "device-@emil:matrix.org" "DEV1";
       ACreateClient (tokenLoginOf sample_login "abc" "DEV1")] ++ rest.
Proof.
  intros s.
  destruct (start_writes_token_then_device sample_world sample_login s
              "abc" "DEV1") as (rest & Htr & _).
  - left. reflexivity.
  - reflexivity.
  - exists rest. exact Htr.
Defined.

(** ** Timeline pipeline: lemmas *)

Lemma dispatches_app eid tr1 tr2 :
  dispatches eid (tr1 ++ tr2)
  = (dispatches eid tr1 + dispatches eid tr2)%nat.
Proof. unfold dispatches. by rewrite List.filter_app, length_app. Qed.

Lemma forEach_cons {A} (x : A) l (f : A → M unit) s :
  forEach (x :: l) f s = bind (f x) (λ _, forEach l f) s.
Proof. done. Qed.

Lemma timelineHandler_run w e s :
  outcome (timelineHandler w e s) = Return tt
  ∧ ∀ eid, dispatches eid (trace (timelineHandler w e s))
           = message_with_id w eid e.
Proof.
  unfold timelineHandler, message_with_id, isMessage.
  destruct (String.eqb (ev_type e) (sdk_RoomMessage w)) eqn:E1,
    (String.eqb (ev_type e) (sdk_RoomMessageEncrypted w)) eqn:E2; cbn;
    try (split; [done|]; intros eid; done).
  all: unfold bind, decryptEventIfNeeded, getContent, act, ret; rewrite ?E2;
    cbn.
  all: repeat match goal with
       | |- context [bool_decide ?P] => destruct (bool_decide P); cbn
       end.
  all: split; [done|]; intros eid; unfold dispatches; cbn;
    by destruct (String.eqb (ev_id e) eid).
Qed.

Lemma scrollbackCallback_forEach w r :
  scrollbackCallback w r = forEach (room_events r) (scanEvent w).
Proof. done. Qed.

Lemma scanEvent_run w e s :
  outcome (scanEvent w e s) = Return tt
  ∧ final (scanEvent w e s) = s
  ∧ trace (scanEvent w e s)
    = (if isMessage w e
       then [ALogContent (ev_id e)
                         (default (ev_wire e) (st_clear s !! ev_id e))]
       else []).
Proof. unfold scanEvent, isMessage. by destruct (_ || _). Qed.

(** What the scrollback callback does, in full: it logs the current content
    of every message event of the timeline, in order, and changes nothing. *)
Lemma scrollbackCallback_run w r s :
  outcome (scrollbackCallback w r s) = Return tt
  ∧ final (scrollbackCallback w r s) = s
  ∧ trace (scrollbackCallback w r s)
    = (λ e, ALogContent (ev_id e) (default (ev_wire e) (st_clear s !! ev_id e)))
      <$> List.filter (isMessage w) (room_events r).
Proof.
  rewrite scrollbackCallback_forEach.
  induction (room_events r) as [|e l IH]; [done|].
  rewrite forEach_cons.
  destruct (scanEvent_run w e s) as (Ho & Hf & Ht).
  destruct (bind_Return (scanEvent w e) (λ _, forEach l (scanEvent w)) s tt Ho)
    as (-> & -> & ->).
  rewrite Hf, Ht. destruct IH as (IH1 & IH2 & IH3).
  repeat split; [done|done|]. rewrite IH3. cbn.
  by destruct (isMessage w e).
Qed.

Lemma scanEvent_dispatches w e s eid :
  dispatches eid (trace (scanEvent w e s)) = message_with_id w eid e.
Proof.
  destruct (scanEvent_run w e s) as (_ & _ & ->).
  unfold message_with_id, dispatches. destruct (isMessage w e); [|done].
  cbn. by destruct (String.eqb (ev_id e) eid).
Qed.

Lemma scrollbackCallback_dispatches w r s eid :
  dispatches eid (trace (scrollbackCallback w r s))
  = sum_list (message_with_id w eid <$> room_events r).
Proof.
  rewrite scrollbackCallback_forEach.
  induction (room_events r) as [|e l IH]; [done|].
  rewrite forEach_cons.
  destruct (scanEvent_run w e s) as (Ho & Hf & _).
  destruct (bind_Return (scanEvent w e) (λ _, forEach l (scanEvent w)) s tt Ho)
    as (_ & _ & ->).
  rewrite Hf, dispatches_app, scanEvent_dispatches, IH. by rewrite fmap_cons.
Qed.

Lemma deliver_run w a s :
  outcome (deliver w a s) = Return tt
  ∧ ∀ eid, dispatches eid (trace (deliver w a s))
           = (notified w eid a + scanned w eid a)%nat.
Proof.
  destruct a as [e|r]; cbn [deliver notified scanned].
  - destruct (timelineHandler_run w e s) as [Ho Hd]. split; [done|].
    intros eid. rewrite Hd. lia.
  - destruct (scrollbackCallback_run w r s) as (Ho & _ & _). split; [done|].
    intros eid. apply scrollbackCallback_dispatches.
Qed.

(** C4.  The scrollback callback does not treat an encrypted event as the
    listener does.  For a timeline that holds an encrypted event which has
    not been decrypted yet, the callback runs no decryption at all and logs
    the content of that event as received; the listener, given the same
    event in the same state, first runs the decryption and then logs the
    decrypted content. *)
Theorem scrollbackCallback_logs_undecrypted w e r s :
  ev_type e = sdk_RoomMessageEncrypted w →
  st_clear s !! ev_id e = None →
  e ∈ room_events r →
  Forall (λ a, is_decrypt a = false) (trace (scrollbackCallback w r s))
  ∧ ALogContent (ev_id e) (ev_wire e) ∈ trace (scrollbackCallback w r s)
  ∧ ∃ rest, trace (timelineHandler w e s)
            = ADecrypt (ev_id e) :: ALogContent (ev_id e) (w_decrypt w e)
              :: rest.
Proof.
  intros Htype Hclear Hr.
  destruct (scrollbackCallback_run w r s) as (_ & _ & ->).
  split; [|split].
  - apply Forall_fmap, Forall_forall. by intros x _.
  - apply list_elem_of_fmap.
    exists e. rewrite Hclear. split; [done|].
    apply list_elem_of_In, List.filter_In. split; [by apply list_elem_of_In|].
    unfold isMessage. by rewrite Htype, String.eqb_refl, orb_true_r.
  - unfold timelineHandler. rewrite Htype, String.eqb_refl, andb_false_r.
    unfold bind at 1. unfold decryptEventIfNeeded.
    rewrite Htype, String.eqb_refl, Hclear. cbn.
    unfold bind, getContent, act, ret. cbn. rewrite lookup_insert_eq. cbn.
    destruct (bool_decide _); cbn; eauto.
Qed.

Lemma scrollbackCallback_logs_undecrypted_witness :
  trace (scrollbackCallback sample_world sample_room (state_of ∅))
  = [ALogContent "$e1" {[ "ciphertext" := "AwgAEnAC" ]}]
  ∧ trace (timelineHandler sample_world sample_event (state_of ∅))
    = [ADecrypt "$e1";
       ALogContent "$e1" {[ "msgtype" := "m.text"; "body" := "hello" ]};
       ALog [VStr "hello"]]
  ∧ Forall (λ a, is_decrypt a = false)
           (trace (scrollbackCallback sample_world sample_room (state_of ∅))).
Proof.
  destruct (scrollbackCallback_logs_undecrypted sample_world sample_event
              sample_room (state_of ∅)) as (Hnone & _ & _).
  - reflexivity.
  - reflexivity.
  - apply list_elem_of_In. simpl. left. reflexivity.
  - split; [vm_compute; reflexivity|].
    split; [vm_compute; reflexivity|exact Hnone].
Defined.

(** C5, counterexample.  An event arrives live, is dispatched by the
    listener, and is in the room's timeline when the scrollback promise
    resolves: the callback dispatches it again. *)
Lemma live_event_dispatched_twice :
  let schedule := [Timeline sample_event; ScrollbackResolved sample_room] in
  sdk_schedule schedule
  ∧ dispatches "$e1" (trace (eventLoop sample_world schedule (state_of ∅)))
    = 2%nat
  ∧ ¬ dispatched_at_most_once sample_world schedule (state_of ∅).
Proof.
  intros schedule.
  assert (dispatches "$e1"
            (trace (eventLoop sample_world schedule (state_of ∅))) = 2%nat)
    as Htwice by (vm_compute; reflexivity).
  split; [|split; [exact Htwice|]].
  - unfold sdk_schedule. cbn. split; [apply NoDup_singleton|].
    split; [lia|]. constructor; [apply NoDup_singleton|constructor].
  - intros Hone. specialize (Hone "$e1"). rewrite Htwice in Hone. lia.
Qed.

(** C5, amended.  Each consumer dispatches on its own and nothing is
    deduplicated between them: in every run of the two consumers the number
    of times the content of an event is logged is the number of [Timeline]
    notifications of it as a message event plus the number of its
    occurrences as a message event in the timelines the scrollback callback
    scans. *)
Theorem eventLoop_dispatch_count w (schedule : list Arrival) s eid :
  outcome (eventLoop w schedule s) = Return tt
  ∧ dispatches eid (trace (eventLoop w schedule s))
    = (sum_list (notified w eid <$> schedule)
       + sum_list (scanned w eid <$> schedule))%nat.
Proof.
  unfold eventLoop. revert s.
  induction schedule as [|a l IH]; intros s; [done|].
  rewrite forEach_cons.
  destruct (deliver_run w a s) as [Ho Hd].
  destruct (bind_Return (deliver w a) (λ _, forEach l (deliver w)) s tt Ho)
    as (-> & _ & ->).
  destruct (IH (final (deliver w a s))) as [IH1 IH2].
  split; [done|].
  rewrite dispatches_app, Hd, IH2, !fmap_cons. cbn. lia.
Qed.

(** ** The top-level script: lemmas *)

Lemma start_run w p s :
  Forall (λ a, session_action a = true) (trace (start w p s))
  ∧ ((∃ c, outcome (start w p s) = Return c)
     ∨ (∃ e, outcome (start w p s) = Throw e)).
Proof.
  assert (∀ t s', Forall (λ a, session_action a = true)
                    (trace (startWithToken w t s'))) as Hsw.
  { intros t s'. destruct (startWithToken_trace w t s') as (rest & -> & Hr & _).
    constructor; [done|]. eapply Forall_impl; [exact Hr|].
    by intros a [->|[->| ->]]. }
  pose proof (startWithToken_ends w) as Hso.
  assert (∀ tok dev, missing_entry p s → w_login w p = Resolved (tok, dev) →
            Forall (λ a, session_action a = true) (trace (start w p s))
            ∧ ((∃ c, outcome (start w p s) = Return c)
               ∨ (∃ e, outcome (start w p s) = Throw e))) as Hres.
  { intros tok dev Hm Hl. rewrite (start_fresh_resolved w p s tok dev Hm Hl).
    cbv zeta. cbn [trace outcome]. split; [|apply Hso].
    apply Forall_app. split; [|apply Hsw]. by repeat constructor. }
  assert (∀ e, missing_entry p s → w_login w p = Rejected e →
            Forall (λ a, session_action a = true) (trace (start w p s))
            ∧ ((∃ c, outcome (start w p s) = Return c)
               ∨ (∃ e, outcome (start w p s) = Throw e))) as Hrej.
  { intros e Hm Hl. rewrite (start_fresh_rejected w p s e Hm Hl). cbn.
    split; [by repeat constructor|eauto]. }
  destruct (st_localStorage s !! tokenKey (pl_userId p)) as [tok|] eqn:Ht;
    [destruct (st_localStorage s !! deviceKey (pl_userId p)) as [dev|] eqn:Hd|].
  - rewrite (start_fast_path w p s tok dev Ht Hd).
    specialize (Hsw (tokenLoginOf p tok dev) s).
    specialize (Hso (tokenLoginOf p tok dev) s).
    unfold bind, ret.
    destruct (startWithToken w (tokenLoginOf p tok dev) s) as [[] ? ?];
      cbn in *; rewrite ?app_nil_r; split; eauto;
      destruct Hso as [[? ?]|[? ?]]; done.
  - destruct (w_login w p) as [[tok' dev']|e] eqn:Hl;
      [eapply Hres|eapply Hrej]; eauto; by right.
  - destruct (w_login w p) as [[tok' dev']|e] eqn:Hl;
      [eapply Hres|eapply Hrej]; eauto; by left.
Qed.

Lemma pollPhase_nil w cur :
  pollPhase w cur []
  = if cur <? sdk_VerificationPhase_Started w then diverge else ret tt.
Proof. done. Qed.

Lemma pollPhase_cons w cur next later :
  pollPhase w cur (next :: later)
  = if cur <? sdk_VerificationPhase_Started w then
      act (ASleep 1000) ;;
      act (ALog [VStr "Pending"; VNum next]) ;;
      pollPhase w next later
    else ret tt.
Proof. done. Qed.

Lemma pollPhase_run w cur later s :
  Forall (λ a, poll_action a = true) (trace (pollPhase w cur later s))
  ∧ final (pollPhase w cur later s) = s
  ∧ (outcome (pollPhase w cur later s) = Return tt
     ∨ outcome (pollPhase w cur later s) = Diverge).
Proof.
  revert cur. induction later as [|next later IH]; intros cur.
  - rewrite pollPhase_nil.
    destruct (cur <? sdk_VerificationPhase_Started w); cbn; auto.
  - rewrite pollPhase_cons.
    destruct (cur <? sdk_VerificationPhase_Started w); [|cbn; auto].
    unfold bind, act.
    destruct (IH next) as (HF & Hf & Ho).
    destruct (pollPhase w next later s) as [o f t]. cbn in *.
    destruct Ho as [-> | ->]; cbn; repeat split; auto.
Qed.

Lemma filter_none {A} (P f : A → bool) (l : list A) :
  Forall (λ a, P a = true) l →
  (∀ a, P a = true → f a = false) →
  List.filter f l = [].
Proof.
  intros HF Hf. induction HF as [|a l Ha _ IH]; [done|].
  cbn. by rewrite (Hf a Ha).
Qed.

Lemma last_cons_app_cons {A} (x y : A) l l' :
  last (x :: l ++ y :: l') = last (y :: l').
Proof. apply (last_app_cons (x :: l)). Qed.

Lemma main_start w s :
  main w s
  = bind (start w (env_login w))
         (λ client,
            act (ALog [VStr "-----------\n\n CRYPTO BOOTSTRAPPING\n\n-----------"]) ;;
            await ACheckKeyBackupAndEnable (w_checkKeyBackupAndEnable w 0%nat) ;;
            verified <- await (AGetUserVerificationStatus
                                 (tl_userId (client_opts client)))
                              (w_isVerified w) ;;
            act (ALog [VStr "OWN verify status:"; VStatus verified;
                       VBool verified]) ;;
            (if negb verified then verification w else ret tt) ;;
            await ACheckKeyBackupAndEnable (w_checkKeyBackupAndEnable w 1%nat) ;;
            act AOnTimeline ;;
            act AGetRooms ;;
            scrollback
              (List.find (λ r, String.eqb (room_name r) "Emil") (w_rooms w))
              100) s.
Proof. reflexivity. Qed.

(** Case analysis over a run of [main]: the run of [start] and of the polling
    loop are abstracted by [start_run] and [pollPhase_run], every answer of
    the world is split. *)
Ltac run_start w s :=
  let HF := fresh "Hstart" in
  let Ho := fresh "Hstart_out" in
  destruct (start_run w (env_login w) s) as [HF Ho];
  destruct (start w (env_login w) s) as [? ? ?];
  cbn [outcome trace final] in HF, Ho;
  destruct Ho as [[? ->]|[? ->]].

Ltac run_poll :=
  match goal with
  | |- context [pollPhase ?w ?c ?l ?s] =>
    let HF := fresh "Hpoll" in
    let Hf := fresh "Hpoll_final" in
    let Ho := fresh "Hpoll_out" in
    destruct (pollPhase_run w c l s) as (HF & Hf & Ho);
    destruct (pollPhase w c l s) as [? ? ?];
    cbn [outcome trace final] in HF, Hf, Ho;
    destruct Ho as [-> | ->]
  end.

Ltac run_world :=
  repeat (cbn;
    match goal with
    | |- context [pollPhase _ _ _ _] => run_poll
    | |- context [match ?x with _ => _ end] =>
      lazymatch x with
      | context [match _ with _ => _ end] => fail
      | _ => destruct x eqn:?
      end
    end).

Ltac run_main w s :=
  rewrite (main_start w s);
  unfold verification, scrollback, bind, act, await, throw, exit, ret;
  run_start w s; run_world; cbn [outcome trace final].

(** Membership in a trace that is spelled out. *)
Ltac elem_split H :=
  lazymatch type of H with
  | _ ∈ _ ++ _ => apply elem_of_app in H as [H|H]; elem_split H
  | _ ∈ _ :: _ =>
    apply elem_of_cons in H as [H|H]; [try discriminate H|elem_split H]
  | _ ∈ [] => apply elem_of_nil in H; destruct H
  | _ ∈ ?t =>
    match goal with
    | HF : Forall _ t |- _ =>
      rewrite Forall_forall in HF; apply HF in H; discriminate H
    end
  end.

Ltac elem_find :=
  repeat first
    [ apply list_elem_of_here
    | apply list_elem_of_further
    | apply elem_of_app; right ].

Ltac filter_fact f HF t :=
  lazymatch goal with
  | _ : List.filter f t = [] |- _ => fail
  | _ =>
    let H := fresh "Hnone" in
    assert (List.filter f t = []) as H;
    [eapply filter_none; [exact HF|intros []; done]|]
  end.

Ltac filter_trace f :=
  repeat match goal with
         | HF : Forall (λ a, session_action a = true) ?t |- _ =>
           filter_fact f HF t
         | HF : Forall (λ a, poll_action a = true) ?t |- _ =>
           filter_fact f HF t
         end;
  repeat (rewrite ?List.filter_app; cbn [List.filter f]);
  repeat match goal with
         | H : List.filter f _ = [] |- _ => rewrite H; clear H
         end;
  cbn [app length].


Ltac last_trace :=
  repeat (rewrite ?last_app_cons, ?last_cons_app_cons; cbn [last]).

Ltac prompt_answer :=
  match goal with
  | H : negb (bool_decide _) = false |- _ =>
    apply negb_false_iff, bool_decide_eq_true in H
  | H : negb (bool_decide _) = true |- _ =>
    apply negb_true_iff, bool_decide_eq_false in H
  end.

(** C6.  In every run in which the prompt is reached and answered with
    anything but "y", the process ends by [process.exit(0)], [sas.confirm]
    is never called, and [checkKeyBackupAndEnable] has been called once: the
    call before the verification, not the one after it. *)
Theorem reject_exits_without_confirm w s :
  let r := main w s in
  APrompt "Accept? [y/n]" ∈ trace r →
  w_prompt w ≠ Some "y" →
  outcome r = Exit 0
  ∧ (AConfirm ∉ trace r)
  ∧ backups (trace r) = 1%nat.
Proof.
  intros r. subst r. run_main w s; intros Hp Hn.
  all: try (elem_split Hp; fail).
  all: try (prompt_answer; congruence).
  all: split; [done|]; split; [intros Hc; elem_split Hc|].
  all: unfold backups; filter_trace is_backup; done.
Qed.

Lemma reject_exits_without_confirm_witness :
  outcome (main reject_world (state_of ∅)) = Exit 0
  ∧ backups (trace (main reject_world (state_of ∅))) = 1%nat.
Proof.
  destruct (reject_exits_without_confirm reject_world (state_of ∅))
    as (Ho & _ & Hb).
  - apply list_elem_of_In. vm_compute.
    repeat first [left; reflexivity | right].
  - vm_compute. discriminate.
  - split; [exact Ho|exact Hb].
Defined.

(** C7, counterexample.  On a rejected comparison the process exits right
    after [mismatch]: the promise of [verify] is never awaited. *)
Lemma reject_leaves_verify_pending :
  ¬ verification_settled reject_world (state_of ∅)
  ∧ outcome (main reject_world (state_of ∅)) = Exit 0
  ∧ protocol (trace (main reject_world (state_of ∅)))
    = [ACheckKeyBackupAndEnable; AVerify; AMismatch].
Proof.
  assert (protocol (trace (main reject_world (state_of ∅)))
          = [ACheckKeyBackupAndEnable; AVerify; AMismatch]) as Hp
    by (vm_compute; reflexivity).
  split; [|split; [vm_compute; reflexivity|exact Hp]].
  intros Hset. destruct Hset as [Haw _].
  - apply list_elem_of_In. vm_compute.
    repeat first [left; reflexivity | right].
  - right. exists 0. vm_compute. reflexivity.
  - assert (AAwaitVerify ∈ protocol (trace (main reject_world (state_of ∅))))
      as Hin.
    { apply list_elem_of_In, List.filter_In. split; [|done].
      by apply list_elem_of_In. }
    rewrite Hp in Hin. elem_split Hin.
Qed.

(** C7, amended.  In a run that reaches the prompt: on "y", if the script
    goes on to the second key-backup call, then between the two key-backup
    calls [verify] was called, [confirm] was awaited (when the verifier has
    SAS callbacks) and the promise of [verify] was awaited, in this order;
    on any other answer [mismatch] is called (when the callbacks exist) and
    the process exits with status 0 without awaiting the promise of
    [verify]. *)
Theorem verification_accept_reject w s :
  let r := main w s in
  APrompt "Accept? [y/n]" ∈ trace r →
  (w_prompt w = Some "y" → backups (trace r) = 2%nat →
   protocol (trace r)
   = [ACheckKeyBackupAndEnable; AVerify]
     ++ match w_sas w with Some _ => [AConfirm] | None => [] end
     ++ [AAwaitVerify; ACheckKeyBackupAndEnable])
  ∧ (w_prompt w ≠ Some "y" →
     outcome r = Exit 0
     ∧ protocol (trace r)
       = [ACheckKeyBackupAndEnable; AVerify]
         ++ match w_sas w with Some _ => [AMismatch] | None => [] end).
Proof.
  intros r. subst r. run_main w s; intros Hp.
  all: try (elem_split Hp; fail).
  all: prompt_answer.
  all: split; [intros Hy; unfold backups; filter_trace is_backup; intros Hb;
               try discriminate Hb; try congruence
              |intros Hn; try congruence].
  all: unfold protocol; filter_trace protocol_step;
    rewrite ?Heqo; try done.
  all: split; [done|]; unfold protocol; filter_trace protocol_step;
    rewrite ?Heqo; done.
Qed.

Lemma verification_accept_reject_witness :
  protocol (trace (main sample_world (state_of ∅)))
  = [ACheckKeyBackupAndEnable; AVerify; AConfirm; AAwaitVerify;
     ACheckKeyBackupAndEnable].
Proof.
  destruct (verification_accept_reject sample_world (state_of ∅))
    as [Hacc _].
  - apply list_elem_of_In. vm_compute.
    repeat first [left; reflexivity | right].
  - apply Hacc; vm_compute; reflexivity.
Defined.

(** C8, counterexample.  The first key-backup call is rejected: the script
    ends there with the rejection. *)
Lemma backup_failure_is_fatal :
  ¬ backup_failure_tolerated backup_down_world (state_of ∅)
  ∧ outcome (main backup_down_world (state_of ∅)) = Throw backup_down
  ∧ last (trace (main backup_down_world (state_of ∅)))
    = Some ACheckKeyBackupAndEnable.
Proof.
  assert (outcome (main backup_down_world (state_of ∅)) = Throw backup_down)
    as Ho by (vm_compute; reflexivity).
  split; [|split; [exact Ho|vm_compute; reflexivity]].
  intros Htol. destruct (Htol 0%nat backup_down) as [Hne _].
  - reflexivity.
  - vm_compute. lia.
  - by apply Hne.
Qed.

(** C8, amended.  A rejection of a key-backup call is not caught: when the
    [n]-th call is made and rejected, the script ends with that rejection as
    its uncaught error, the rejected call is its last action (nothing is
    logged, nothing more is run). *)
Theorem backup_failure_propagates w s n e :
  w_checkKeyBackupAndEnable w n = Rejected e →
  (n < backups (trace (main w s)))%nat →
  outcome (main w s) = Throw e
  ∧ last (trace (main w s)) = Some ACheckKeyBackupAndEnable
  ∧ backups (trace (main w s)) = S n.
Proof.
  intros Hrej. run_main w s.
  all: unfold backups; filter_trace is_backup; intros Hn.
  all: try lia.
  all: try (assert (n = 0%nat) as -> by lia; congruence).
  all: try (assert (n = 0%nat ∨ n = 1%nat) as [-> | ->] by lia; congruence).
  all: try (assert (n = 0%nat) as -> by lia;
            assert (e = e0) as <- by congruence).
  all: try (assert (n = 0%nat ∨ n = 1%nat) as [-> | ->] by lia;
            [congruence|]; assert (e = e0) as <- by congruence).
  all: split; [done|]; split; [|done]; last_trace; done.
Qed.

Lemma backup_failure_propagates_witness :
  outcome (main backup_down_world (state_of ∅)) = Throw backup_down
  ∧ backups (trace (main backup_down_world (state_of ∅))) = 1%nat.
Proof.
  destruct (backup_failure_propagates backup_down_world (state_of ∅) 0%nat
              backup_down) as (Ho & _ & Hb).
  - reflexivity.
  - vm_compute. lia.
  - split; [exact Ho|exact Hb].
Defined.

(** C9, counterexample.  With no room at all the script ends with the
    TypeError of the [scrollback] call. *)
Lemma missing_room_not_reported :
  ¬ reports_RoomNotFound no_room_world (state_of ∅)
  ∧ outcome (main no_room_world (state_of ∅))
    = Throw {| err_class := "TypeError"; err_message := "room is undefined" |}.
Proof.
  assert (outcome (main no_room_world (state_of ∅))
          = Throw {| err_class := "TypeError";
                     err_message := "room is undefined" |}) as Ho
    by (vm_compute; reflexivity).
  split; [|exact Ho].
  intros Hrep. destruct Hrep as [msg Hmsg].
  - apply list_elem_of_In. vm_compute.
    repeat first [left; reflexivity | right].
  - reflexivity.
  - rewrite Ho in Hmsg. discriminate Hmsg.
Qed.

(** C9, amended.  When the lookup is reached and finds no room named
    "Emil", its undefined result is handed to [scrollback] unchecked: that
    call is the last action of the script, which ends with the call's
    TypeError, an error other than the one of a failed sync. *)
Theorem missing_room_is_TypeError w s :
  let r := main w s in
  AGetRooms ∈ trace r →
  findEmil w = None →
  outcome r = Throw {| err_class := "TypeError";
                       err_message := "room is undefined" |}
  ∧ last (trace r) = Some (AScrollback None 100)
  ∧ outcome r ≠ Throw sync_failed.
Proof.
  intros r. subst r. unfold findEmil. run_main w s; intros Hg Hf.
  all: try (elem_split Hg; fail).
  all: try discriminate Hf.
  all: split; [done|]; split; [last_trace; done|done].
Qed.

Lemma missing_room_is_TypeError_witness :
  last (trace (main no_room_world (state_of ∅))) = Some (AScrollback None 100).
Proof.
  destruct (missing_room_is_TypeError no_room_world (state_of ∅))
    as (_ & Hl & _).
  - apply list_elem_of_In. vm_compute.
    repeat first [left; reflexivity | right].
  - reflexivity.
  - exact Hl.
Defined.

(** ** Further properties: room ordering *)

Lemma compareRooms_converse a b :
  lastTs a ≠ None → lastTs b ≠ None →
  compareRooms a b <= 0 → 0 <= compareRooms b a.
Proof.
  unfold compareRooms, lastTs.
  destruct (last (room_events a)) as [ea|], (last (room_events b)) as [eb|];
    simpl; try done.
  intros _ _.
  destruct (ev_ts ea =? ev_ts eb) eqn:E1, (ev_ts ea >? ev_ts eb) eqn:E2,
    (ev_ts eb =? ev_ts ea) eqn:E3, (ev_ts eb >? ev_ts ea) eqn:E4; lia.
Qed.

Lemma sort_merge_last {A} (cmp : A → A → Z) l x :
  Forall (λ p, 0 <= cmp x p) l → sort_merge cmp l [x] = l ++ [x].
Proof.
  induction 1 as [|p l Hp _ IH]; [done|].
  rewrite sort_merge_cons.
  destruct (cmp x p <? 0) eqn:E; [apply Z.ltb_lt in E; lia|].
  by rewrite IH.
Qed.

(** On rooms that all have events, a list the callback finds in order is
    returned as it is. *)
Lemma array_sort_sorted_id (l : list Room) :
  (∀ r, r ∈ l → lastTs r ≠ None) →
  StronglySorted (λ a b, compareRooms a b <= 0) l →
  array_sort compareRooms l = l.
Proof.
  induction l as [|x l IH] using rev_ind; [done|].
  intros Hne Hs. apply StronglySorted_app in Hs as (Hlx & Hl & _).
  assert (∀ r, r ∈ l → lastTs r ≠ None) as Hnel.
  { intros r Hr. apply Hne, elem_of_app. by left. }
  assert (lastTs x ≠ None) as Hnex.
  { apply Hne, elem_of_app. right. by apply list_elem_of_singleton. }
  rewrite array_sort_snoc, IH by done.
  apply sort_merge_last, Forall_forall. intros p Hp.
  apply compareRooms_converse; [by apply Hnel|done|].
  apply Hlx; [done|by apply list_elem_of_singleton].
Qed.

(** X1.  On rooms that all have events, whatever their timestamps (ties
    included), the result is in non-decreasing order of last-event
    timestamp. *)
Theorem getRoomList_nondecreasing (rooms : list Room) i j a b x y :
  (∀ r, r ∈ rooms → lastTs r ≠ None) →
  getRoomList rooms !! i = Some a →
  getRoomList rooms !! j = Some b →
  (i < j)%nat →
  lastTs a = Some x →
  lastTs b = Some y →
  x <= y.
Proof.
  intros _ Hi Hj Hij Ha Hb.
  assert (compareRooms a b <= 0) as Hle.
  { apply (StronglySorted_lookup (λ a b, compareRooms a b <= 0)
             (getRoomList rooms) i j a b);
      [apply getRoomList_sorted|done|done|done]. }
  revert Hle Ha Hb. unfold compareRooms, lastTs.
  destruct (last (room_events a)) as [ea|], (last (room_events b)) as [eb|];
    simpl; try done.
  intros Hle [= <-] [= <-].
  destruct (ev_ts ea =? ev_ts eb) eqn:E1; [apply Z.eqb_eq in E1; lia|].
  destruct (ev_ts ea >? ev_ts eb) eqn:E2; lia.
Qed.

Lemma getRoomList_nondecreasing_witness : 100 <= 200.
Proof.
  apply (getRoomList_nondecreasing [room_at "b" 200; room_at "a" 100]
           0 1 (room_at "a" 100) (room_at "b" 200) 100 200);
    [|reflexivity|reflexivity|lia|reflexivity|reflexivity].
  intros r Hr. apply list_elem_of_In in Hr. simpl in Hr.
  destruct Hr as [<-|[<-|[]]]; discriminate.
Defined.

(** X2.  Sorting twice changes nothing more: on rooms that all have events
    (where the callback is a consistent comparison), [getRoomList] applied
    to its own result returns it unchanged. *)
Theorem getRoomList_idempotent (rooms : list Room) :
  (∀ r, r ∈ rooms → lastTs r ≠ None) →
  getRoomList (getRoomList rooms) = getRoomList rooms.
Proof.
  intros Hne. unfold getRoomList at 1.
  apply array_sort_sorted_id; [|apply getRoomList_sorted].
  intros r Hr. apply Hne. unfold getRoomList in Hr.
  by rewrite (Sorts_perm _ _ _ (array_sort_Sorts compareRooms rooms)) in Hr.
Qed.

Lemma getRoomList_idempotent_witness :
  getRoomList (getRoomList [room_at "b" 200; room_at "a" 100])
  = [room_at "a" 100; room_at "b" 200].
Proof.
  rewrite (getRoomList_idempotent [room_at "b" 200; room_at "a" 100]).
  - reflexivity.
  - intros r Hr. apply list_elem_of_In in Hr. simpl in Hr.
    destruct Hr as [<-|[<-|[]]]; discriminate.
Defined.

(** X3.  The sort callback is sign-symmetric on two rooms that both have
    events, and it answers -1 whenever its first room has no events: also
    against a second room without events, and against the room itself. *)
Theorem compareRooms_symmetry (a b : Room) :
  (lastTs a ≠ None → lastTs b ≠ None →
   compareRooms a b = - compareRooms b a)
  ∧ (lastTs a = None → compareRooms a b = -1 ∧ compareRooms a a = -1).
Proof.
  unfold compareRooms, lastTs.
  destruct (last (room_events a)) as [ea|], (last (room_events b)) as [eb|];
    simpl; split; try done.
  intros _ _.
  destruct (ev_ts ea =? ev_ts eb) eqn:E1, (ev_ts ea >? ev_ts eb) eqn:E2,
    (ev_ts eb =? ev_ts ea) eqn:E3, (ev_ts eb >? ev_ts ea) eqn:E4; lia.
Qed.

Lemma compareRooms_symmetry_witness :
  compareRooms (room_at "b" 200) (room_at "a" 100) = 1
  ∧ compareRooms {| room_id := "e"; room_name := "e"; room_events := [] |}
                 {| room_id := "f"; room_name := "f"; room_events := [] |} = -1.
Proof.
  destruct (compareRooms_symmetry (room_at "b" 200) (room_at "a" 100))
    as [Hsym _].
  destruct (compareRooms_symmetry
              {| room_id := "e"; room_name := "e"; room_events := [] |}
              {| room_id := "f"; room_name := "f"; room_events := [] |})
    as [_ Hempty].
  split.
  - rewrite Hsym; [reflexivity|discriminate|discriminate].
  - apply Hempty. reflexivity.
Defined.

(** ** Further properties: session manager *)

Lemma tokenKey_inj u u' : tokenKey u = tokenKey u' → u = u'.
Proof. unfold tokenKey. cbn. intros H. by injection H. Qed.

Lemma deviceKey_inj u u' : deviceKey u = deviceKey u' → u = u'.
Proof. unfold deviceKey. cbn. intros H. by injection H. Qed.

Lemma tokenKey_ne_deviceKey_any u u' : tokenKey u ≠ deviceKey u'.
Proof. unfold tokenKey, deviceKey. simpl. discriminate. Qed.

(** What [start] leaves: the state of the path it took. *)
Lemma start_final w p s :
  final (start w p s) = s
  ∨ ∃ tok dev, w_login w p = Resolved (tok, dev)
               ∧ final (start w p s) = stored_pair p tok dev s.
Proof.
  assert (missing_entry p s →
          final (start w p s) = s
          ∨ ∃ tok dev, w_login w p = Resolved (tok, dev)
                       ∧ final (start w p s) = stored_pair p tok dev s) as Hm.
  { intros Hmiss. destruct (w_login w p) as [[tok dev]|e] eqn:Hl.
    - right. exists tok, dev. split; [done|].
      rewrite (start_fresh_resolved w p s tok dev Hmiss Hl). cbn.
      by destruct (startWithToken_trace w (tokenLoginOf p tok dev)
                     (stored_pair p tok dev s)) as (_ & _ & _ & ->).
    - left. by rewrite (start_fresh_rejected w p s e Hmiss Hl). }
  destruct (st_localStorage s !! tokenKey (pl_userId p)) as [tok|] eqn:Ht;
    [destruct (st_localStorage s !! deviceKey (pl_userId p)) as [dev|] eqn:Hd|].
  - left. rewrite (start_fast_path w p s tok dev Ht Hd).
    destruct (startWithToken_trace w (tokenLoginOf p tok dev) s)
      as (_ & _ & _ & Hfin).
    unfold bind, ret.
    by destruct (startWithToken w (tokenLoginOf p tok dev) s) as [[] f t].
  - apply Hm. by right.
  - apply Hm. by left.
Qed.

(** X4.  [startWithToken] never touches the state; it returns a client,
    bound to the login it was given, exactly when [initRustCrypto] and
    [startClient] resolve and the first sync state is "PREPARED"; a rejected
    [initRustCrypto] ends it before [startClient] is called; any other first
    sync state ends it with the error "Sync failed.". *)
Theorem startWithToken_result w t s :
  let r := startWithToken w t s in
  final r = s
  ∧ (outcome r = Return {| client_opts := t |}
     ↔ w_initRustCrypto w = Resolved tt ∧ w_startClient w = Resolved tt
       ∧ w_sync w = "PREPARED")
  ∧ (∀ e, w_initRustCrypto w = Rejected e →
       outcome r = Throw e ∧ trace r = [ACreateClient t; AInitRustCrypto])
  ∧ (w_initRustCrypto w = Resolved tt → w_startClient w = Resolved tt →
     w_sync w ≠ "PREPARED" →
     outcome r = Throw sync_failed
     ∧ trace r = [ACreateClient t; AInitRustCrypto; AStartClient 5; AOnceSync]).
Proof.
  intros r. subst r. unfold startWithToken, bind, act, await, throw, ret.
  destruct (w_initRustCrypto w) as [[]|e1], (w_startClient w) as [[]|e2],
    (String.eqb_spec (w_sync w) "PREPARED") as [E|E]; cbn.
  all: unfold sync_failed; repeat split; intros;
    repeat match goal with H : _ ∧ _ |- _ => destruct H end;
    congruence.
Qed.

Lemma startWithToken_result_witness :
  outcome (startWithToken sample_world (tokenLoginOf sample_login "abc" "DEV1")
             (state_of ∅))
  = Return {| client_opts := tokenLoginOf sample_login "abc" "DEV1" |}.
Proof.
  destruct (startWithToken_result sample_world
              (tokenLoginOf sample_login "abc" "DEV1") (state_of ∅))
    as (_ & Hret & _).
  apply Hret. repeat split; reflexivity.
Defined.

(** X5.  [getTokenLogin] never touches the state.  When the login
    succeeds it stops the login client and returns the issued token and
    device id with the base URL and user id it was given; when the login is
    rejected the rejection is thrown and [stopClient] is not called. *)
Theorem getTokenLogin_result w p s :
  let r := getTokenLogin w p s in
  final r = s
  ∧ (∀ tok dev, w_login w p = Resolved (tok, dev) →
       outcome r = Return (tokenLoginOf p tok dev)
       ∧ trace r = [ACreateLoginClient (pl_baseUrl p);
                    ALogin (pl_userId p) (pl_password p);
                    AStopLoginClient])
  ∧ (∀ e, w_login w p = Rejected e →
       outcome r = Throw e
       ∧ trace r = [ACreateLoginClient (pl_baseUrl p);
                    ALogin (pl_userId p) (pl_password p)]).
Proof.
  intros r. subst r. unfold getTokenLogin, bind, act, await, ret.
  destruct (w_login w p) as [[tok dev]|e]; cbn.
  - split; [done|]. split; [|done]. by intros tok' dev' [= <- <-].
  - split; [done|]. split; [done|]. by intros e' [= <-].
Qed.

Lemma getTokenLogin_result_witness :
  outcome (getTokenLogin sample_world sample_login (state_of ∅))
  = Return (tokenLoginOf sample_login "abc" "DEV1").
Proof.
  destruct (getTokenLogin_result sample_world sample_login (state_of ∅))
    as (_ & Hok & _).
  destruct (Hok "abc" "DEV1" eq_refl) as [Ho _]. exact Ho.
Defined.

(** X6.  Credential round trip.  After a run of [start] that had to log in
    and got a pair issued (whether or not that run then reached a ready
    sync), a second run of [start] for the same user, in any world, makes no
    login call and no write, and creates the client with exactly the pair
    the first run was issued. *)
Theorem start_restart_reuses_pair w w' p s tok dev :
  missing_entry p s →
  w_login w p = Resolved (tok, dev) →
  let s1 := final (start w p s) in
  let r := start w' p s1 in
  Forall (λ a, is_login a = false ∧ is_setItem a = false) (trace r)
  ∧ head (trace r) = Some (ACreateClient (tokenLoginOf p tok dev))
  ∧ final r = s1.
Proof.
  intros Hmiss Hlogin s1 r. subst r.
  assert (s1 = stored_pair p tok dev s) as ->.
  { subst s1. rewrite (start_fresh_resolved w p s tok dev Hmiss Hlogin). cbn.
    by destruct (startWithToken_trace w (tokenLoginOf p tok dev)
                   (stored_pair p tok dev s)) as (_ & _ & _ & ->). }
  destruct (stored_pair_lookup p tok dev s) as [Ht Hd].
  rewrite (start_fast_path w' p _ tok dev Ht Hd).
  destruct (startWithToken_trace w' (tokenLoginOf p tok dev)
              (stored_pair p tok dev s)) as (rest & Htr & Hrest & Hfin).
  unfold bind, ret.
  destruct (startWithToken w' (tokenLoginOf p tok dev)
              (stored_pair p tok dev s)) as [o f tr].
  cbn [trace final] in Htr, Hfin. subst tr f.
  assert (Forall (λ a, is_login a = false ∧ is_setItem a = false)
            (ACreateClient (tokenLoginOf p tok dev) :: rest)) as HF.
  { constructor; [done|]. eapply Forall_impl; [exact Hrest|].
    by intros a [->|[->| ->]]. }
  destruct o; cbn; rewrite ?app_nil_r; done.
Qed.

Lemma start_restart_reuses_pair_witness :
  let s1 := final (start sample_world sample_login (state_of ∅)) in
  head (trace (start sample_world sample_login s1))
  = Some (ACreateClient (tokenLoginOf sample_login "abc" "DEV1")).
Proof.
  intros s1.
  destruct (start_restart_reuses_pair sample_world sample_world sample_login
              (state_of ∅) "abc" "DEV1") as (_ & Hhead & _).
  - left. reflexivity.
  - reflexivity.
  - exact Hhead.
Defined.

(** X7.  [start] for one user leaves every other user's stored pair, and
    every entry other than its own two, as it was; it never touches the
    decrypted contents of events. *)
Theorem start_leaves_other_entries w p s :
  let s' := final (start w p s) in
  (∀ k, k ≠ tokenKey (pl_userId p) → k ≠ deviceKey (pl_userId p) →
        st_localStorage s' !! k = st_localStorage s !! k)
  ∧ (∀ u, u ≠ pl_userId p →
          st_localStorage s' !! tokenKey u = st_localStorage s !! tokenKey u
          ∧ st_localStorage s' !! deviceKey u
            = st_localStorage s !! deviceKey u)
  ∧ st_clear s' = st_clear s.
Proof.
  intros s'.
  assert (∀ k, k ≠ tokenKey (pl_userId p) → k ≠ deviceKey (pl_userId p) →
               st_localStorage s' !! k = st_localStorage s !! k) as Hframe.
  { intros k Hk1 Hk2. subst s'.
    destruct (start_final w p s) as [-> | (tok & dev & _ & ->)]; [done|].
    unfold stored_pair. cbn. by rewrite !lookup_insert_ne. }
  split; [exact Hframe|]. split.
  - intros u Hu. split; apply Hframe.
    + intros Heq. by apply tokenKey_inj in Heq.
    + apply tokenKey_ne_deviceKey_any.
    + intros Heq. symmetry in Heq. by apply tokenKey_ne_deviceKey_any in Heq.
    + intros Heq. by apply deviceKey_inj in Heq.
  - subst s'. by destruct (start_final w p s) as [-> | (tok & dev & _ & ->)].
Qed.

Lemma start_leaves_other_entries_witness :
  let s := state_of {[ "token-@anna:matrix.org" := "t9";
                       "device-@anna:matrix.org" := "D9" ]} in
  st_localStorage (final (start sample_world sample_login s))
    !! tokenKey "@anna:matrix.org" = Some "t9"
  ∧ st_localStorage (final (start sample_world sample_login s))
      !! deviceKey "@anna:matrix.org" = Some "D9".
Proof.
  intros s.
  destruct (start_leaves_other_entries sample_world sample_login s)
    as (_ & Hother & _).
  destruct (Hother "@anna:matrix.org") as [Ht Hd]; [discriminate|].
  split; [rewrite Ht|rewrite Hd]; reflexivity.
Defined.

(** X8.  Whenever [start] returns a client, the store holds the access
    token and the device id that client was created with, and the client is
    bound to the user and base URL [start] was called with: on the stored
    path and on the password path alike. *)
Theorem start_client_matches_store w p s c :
  outcome (start w p s) = Return c →
  let ls := st_localStorage (final (start w p s)) in
  ls !! tokenKey (pl_userId p) = Some (tl_accessToken (client_opts c))
  ∧ ls !! deviceKey (pl_userId p) = Some (tl_deviceId (client_opts c))
  ∧ tl_userId (client_opts c) = pl_userId p
  ∧ tl_baseUrl (client_opts c) = pl_baseUrl p.
Proof.
  assert (∀ tok dev, missing_entry p s → w_login w p = Resolved (tok, dev) →
            outcome (start w p s) = Return c →
            client_opts c = tokenLoginOf p tok dev
            ∧ final (start w p s) = stored_pair p tok dev s) as Hres.
  { intros tok dev Hmiss Hl.
    rewrite (start_fresh_resolved w p s tok dev Hmiss Hl). cbn.
    intros Ho. split; [by apply (startWithToken_outcome w _ _ c Ho)|].
    by destruct (startWithToken_trace w (tokenLoginOf p tok dev)
                   (stored_pair p tok dev s)) as (_ & _ & _ & ->). }
  assert (missing_entry p s → outcome (start w p s) = Return c →
          let ls := st_localStorage (final (start w p s)) in
          ls !! tokenKey (pl_userId p) = Some (tl_accessToken (client_opts c))
          ∧ ls !! deviceKey (pl_userId p) = Some (tl_deviceId (client_opts c))
          ∧ tl_userId (client_opts c) = pl_userId p
          ∧ tl_baseUrl (client_opts c) = pl_baseUrl p) as Hm.
  { intros Hmiss Ho. destruct (w_login w p) as [[tok dev]|e] eqn:Hl.
    - destruct (Hres tok dev Hmiss eq_refl Ho) as [-> ->].
      destruct (stored_pair_lookup p tok dev s) as [Ht Hd]. by cbn.
    - rewrite (start_fresh_rejected w p s e Hmiss Hl) in Ho. discriminate Ho. }
  destruct (st_localStorage s !! tokenKey (pl_userId p)) as [tok|] eqn:Ht;
    [destruct (st_localStorage s !! deviceKey (pl_userId p)) as [dev|] eqn:Hd|].
  - rewrite (start_fast_path w p s tok dev Ht Hd).
    pose proof (startWithToken_outcome w (tokenLoginOf p tok dev) s) as Hout.
    destruct (startWithToken_trace w (tokenLoginOf p tok dev) s)
      as (_ & _ & _ & Hfin).
    unfold bind, ret.
    destruct (startWithToken w (tokenLoginOf p tok dev) s) as [[c'| | |] f t];
      cbn in *; try done.
    intros [= <-]. subst f. by rewrite (Hout c' eq_refl).
  - intros Ho. apply Hm; [by right|done].
  - intros Ho. apply Hm; [by left|done].
Qed.

Lemma start_client_matches_store_witness :
  st_localStorage (final (start sample_world sample_login (state_of ∅)))
    !! tokenKey "@emil:matrix.org" = Some "abc".
Proof.
  destruct (start_client_matches_store sample_world sample_login (state_of ∅)
              {| client_opts := tokenLoginOf sample_login "abc" "DEV1" |})
    as (Ht & _); [reflexivity|exact Ht].
Defined.

(** ** Further properties: the top-level script *)

(** X9.  The polling loop waits one second per observed phase below
    [Started], logging the phase it sees after each wait, and ends at the
    first phase that is not below [Started]; when no observed phase reaches
    [Started] it never ends.  It leaves the state alone. *)
Theorem pollPhase_ends_at_first_Started w cur later s :
  let r := pollPhase w cur later s in
  final r = s
  ∧ match list_find (λ ph, sdk_VerificationPhase_Started w <= ph)
                    (cur :: later) with
    | Some (k, _) =>
      outcome r = Return tt ∧ trace r = take k later ≫= pollStep
    | None => outcome r = Diverge ∧ trace r = later ≫= pollStep
    end.
Proof.
  intros r. subst r. revert cur.
  induction later as [|next later IH]; intros cur.
  - rewrite pollPhase_nil. cbn.
    destruct (Z.ltb_spec cur (sdk_VerificationPhase_Started w)),
      (decide (sdk_VerificationPhase_Started w <= cur)); try lia; by cbn.
  - rewrite pollPhase_cons. specialize (IH next).
    cbn [list_find] in *.
    destruct (Z.ltb_spec cur (sdk_VerificationPhase_Started w)),
      (decide (sdk_VerificationPhase_Started w <= cur)); try lia; [|by cbn].
    destruct IH as [Hf IH]. unfold bind, act.
    destruct (pollPhase w next later s) as [o f t]. cbn [final outcome trace] in *.
    destruct (decide (sdk_VerificationPhase_Started w <= next)).
    + cbn in *. destruct IH as [-> ->]. by cbn.
    + destruct (list_find _ later) as [[k ph]|]; cbn in *;
        destruct IH as [-> ->]; by cbn.
Qed.

Lemma find_first {A} (f : A → bool) (l : list A) (x : A) :
  List.find f l = Some x →
  ∃ pre post, l = pre ++ x :: post ∧ f x = true
              ∧ Forall (λ y, f y = false) pre.
Proof.
  induction l as [|y l IH]; [done|]. cbn.
  destruct (f y) eqn:E.
  - intros [= ->]. exists [], l. by repeat split.
  - intros H. destruct (IH H) as (pre & post & -> & Hx & Hpre).
    exists (y :: pre), post. repeat split; [done|]. by constructor.
Qed.




(** X11.  The timeline listener is registered only when the script is
    settled: in a run that registers it, the registration is the last of the
    settling calls, after the second key-backup call, and before it either
    the user was already verified and the two key-backup calls followed one
    another, or the prompt was answered "y" and [verify], [confirm] (when
    the verifier has SAS callbacks) and the await of the promise of
    [verify] came between the two key-backup calls, in this order.  The
    listener is registered once. *)
Theorem listener_registered_after_settled w s :
  let r := main w s in
  AOnTimeline ∈ trace r →
  backups (trace r) = 2%nat
  ∧ ((w_isVerified w = Resolved true
      ∧ settling (trace r)
        = [ACheckKeyBackupAndEnable; ACheckKeyBackupAndEnable; AOnTimeline])
     ∨ (w_isVerified w = Resolved false
        ∧ w_prompt w = Some "y"
        ∧ settling (trace r)
          = [ACheckKeyBackupAndEnable; AVerify]
            ++ match w_sas w with Some _ => [AConfirm] | None => [] end
            ++ [AAwaitVerify; ACheckKeyBackupAndEnable; AOnTimeline])).
Proof.
  intros r. subst r. run_main w s; intros Hon.
  all: try (elem_split Hon; fail).
  all: try prompt_answer.
  all: split; [unfold backups; filter_trace is_backup; done|].
  all: unfold settling; filter_trace settling_step.
  all: match goal with
       | H : negb ?b = true |- _ => destruct b; [discriminate H|]
       | H : negb ?b = false |- _ => destruct b; [|discriminate H]
       end.
  all: first [left; split; [done|done]
             |right; rewrite ?Heqo; split; [done|]; split; done].
Qed.

Lemma listener_registered_after_settled_witness :
  settling (trace (main sample_world (state_of ∅)))
  = [ACheckKeyBackupAndEnable; AVerify; AConfirm; AAwaitVerify;
     ACheckKeyBackupAndEnable; AOnTimeline].
Proof.
  destruct (listener_registered_after_settled sample_world (state_of ∅))
    as (_ & [[Hv _]|(_ & _ & Hs)]).
  - apply list_elem_of_In. vm_compute.
    repeat first [left; reflexivity | right].
  - vm_compute in Hv. discriminate Hv.
  - exact Hs.
Defined.

(** X12.  The script ends through [process.exit] only with status 0, and
    only after the prompt was shown and answered with something other than
    "y". *)
Theorem exit_only_after_rejection w s c :
  outcome (main w s) = Exit c →
  c = 0
  ∧ APrompt "Accept? [y/n]" ∈ trace (main w s)
  ∧ w_prompt w ≠ Some "y".
Proof.
  run_main w s; intros Ho; try discriminate Ho.
  all: injection Ho as <-; prompt_answer.
  all: split; [done|]; split; [elem_find|done].
Qed.

Lemma exit_only_after_rejection_witness :
  w_prompt reject_world ≠ Some "y".
Proof.
  destruct (exit_only_after_rejection reject_world (state_of ∅) 0)
    as (_ & _ & Hn); [vm_compute; reflexivity|exact Hn].
Defined.

(** X13.  The script runs to its end only with [scrollback] as its last
    call, made with limit 100 on the first room of the store whose name is
    "Emil", after the listener has been registered. *)
Theorem main_returns_after_scrollback w s :
  outcome (main w s) = Return tt →
  ∃ r pre post,
    w_rooms w = pre ++ r :: post
    ∧ room_name r = "Emil"
    ∧ Forall (λ r', room_name r' ≠ "Emil") pre
    ∧ last (trace (main w s)) = Some (AScrollback (Some r) 100)
    ∧ AOnTimeline ∈ trace (main w s).
Proof.
  run_main w s; intros Ho; try discriminate Ho.
  all: match goal with
       | H : List.find _ _ = Some ?r |- _ =>
         destruct (find_first _ _ _ H) as (pre & post & Hl & Hn & Hpre);
         exists r, pre, post
       end.
  all: split; [done|]; split; [by apply String.eqb_eq|]; split;
    [eapply Forall_impl; [exact Hpre|]; intros r' Hr'; by apply String.eqb_neq
    |].
  all: split; [last_trace; done|elem_find].
Qed.

Lemma main_returns_after_scrollback_witness :
  ∃ r, room_name r = "Emil"
       ∧ last (trace (main sample_world (state_of ∅)))
         = Some (AScrollback (Some r) 100).
Proof.
  destruct (main_returns_after_scrollback sample_world (state_of ∅))
    as (r & pre & post & _ & Hn & _ & Hl & _); [vm_compute; reflexivity|].
  exists r. split; [exact Hn|exact Hl].
Defined.

(** X14.  When the request has been made and the polling has ended but
    [verReq.verifier] is undefined, the script ends right after logging
    "Done" with the TypeError of calling [verify] on it: of the handshake
    only the request was made ([verify] is not called, the prompt is never
    shown), and the second key-backup call is not made. *)
Theorem undefined_verifier_throws w s :
  let r := main w s in
  w_verifier w = false →
  ARequestOwnUserVerification ∈ trace r →
  w_requestOwnUserVerification w = Resolved tt →
  outcome r ≠ Diverge →
  outcome r = Throw {| err_class := "TypeError";
                       err_message := "verifier is undefined" |}
  ∧ last (trace r) = Some (ALog [VStr "Done"])
  ∧ Forall (λ a, handshake_step a = false ∨ a = ARequestOwnUserVerification)
           (trace r)
  ∧ backups (trace r) = 1%nat.
Proof.
  intros r. subst r. run_main w s; intros Hv Hreq Hres Hnd.
  all: try (elem_split Hreq; fail).
  all: try congruence.
  all: split; [done|]; split; [last_trace; done|]; split;
    [|unfold backups; filter_trace is_backup; done].
  all: repeat first
         [ apply Forall_nil_2
         | apply Forall_cons_2; [by (left + right)|]
         | apply Forall_app_2;
           [eapply Forall_impl; [eassumption|intros []; by left]|] ].
Qed.

Lemma undefined_verifier_throws_witness :
  outcome (main (sample_world_verifying false [3; 4] false) (state_of ∅))
  = Throw {| err_class := "TypeError";
             err_message := "verifier is undefined" |}.
Proof.
  destruct (undefined_verifier_throws
              (sample_world_verifying false [3; 4] false) (state_of ∅))
    as (Ho & _).
  - reflexivity.
  - apply list_elem_of_In. vm_compute.
    repeat first [left; reflexivity | right].
  - reflexivity.
  - vm_compute. discriminate.
  - exact Ho.
Defined.

(** ** Further properties: timeline pipeline *)

Lemma timelineHandler_final w e s :
  st_localStorage (final (timelineHandler w e s)) = st_localStorage s
  ∧ Forall (λ a, is_setItem a = false) (trace (timelineHandler w e s))
  ∧ ∀ k c, st_clear s !! k = Some c →
           st_clear (final (timelineHandler w e s)) !! k = Some c.
Proof.
  unfold timelineHandler.
  destruct (negb _ && negb _); [by cbn|].
  unfold bind, decryptEventIfNeeded, getContent, act, ret.
  destruct (String.eqb (ev_type e) (sdk_RoomMessageEncrypted w)); cbn;
    [destruct (bool_decide_reflect (st_clear s !! ev_id e = None)) as [Hn|Hn];
     cbn|].
  all: repeat match goal with
       | |- context [bool_decide ?P] => destruct (bool_decide P); cbn
       end.
  all: split; [done|]; split; [by repeat constructor|]; intros k c Hk;
    try done.
  all: rewrite lookup_insert_ne; [done|]; intros <-; congruence.
Qed.

(** X16.  The scrollback callback, in full: it logs the current content of
    exactly the events of the timeline whose type is one of the two message
    types, once per occurrence and in timeline order; it always returns,
    changes no state and runs no decryption. *)
Theorem scrollbackCallback_logs_timeline_in_order w r s :
  let run := scrollbackCallback w r s in
  outcome run = Return tt
  ∧ final run = s
  ∧ trace run
    = (λ e, ALogContent (ev_id e) (default (ev_wire e) (st_clear s !! ev_id e)))
      <$> List.filter (isMessage w) (room_events r).
Proof. apply scrollbackCallback_run. Qed.

(** X17.  The listener and the scrollback callback accept the same events:
    each logs the content of an event once when its type is one of the two
    message types and not at all otherwise, whatever the state. *)
Theorem consumers_filter_alike w e r s s' :
  room_events r = [e] →
  dispatches (ev_id e) (trace (timelineHandler w e s))
  = (if isMessage w e then 1 else 0)%nat
  ∧ dispatches (ev_id e) (trace (scrollbackCallback w r s'))
    = (if isMessage w e then 1 else 0)%nat
  ∧ (isMessage w e = false →
     trace (timelineHandler w e s) = []
     ∧ trace (scrollbackCallback w r s') = []).
Proof.
  intros Hr.
  destruct (timelineHandler_run w e s) as [_ Hd].
  rewrite Hd, scrollbackCallback_dispatches, Hr. cbn.
  unfold message_with_id. rewrite String.eqb_refl, andb_true_r.
  split; [done|]. split; [by destruct (isMessage w e)|].
  intros Hm. destruct (scrollbackCallback_run w r s') as (_ & _ & ->).
  rewrite Hr. cbn. rewrite Hm. split; [|done].
  revert Hm. unfold isMessage, timelineHandler.
  destruct (String.eqb (ev_type e) (sdk_RoomMessage w)),
    (String.eqb (ev_type e) (sdk_RoomMessageEncrypted w)); by cbn.
Qed.

Lemma consumers_filter_alike_witness :
  dispatches "$e1" (trace (timelineHandler sample_world sample_event
                             (state_of ∅))) = 1%nat
  ∧ dispatches "$e1" (trace (scrollbackCallback sample_world sample_room
                               (state_of ∅))) = 1%nat.
Proof.
  destruct (consumers_filter_alike sample_world sample_event sample_room
              (state_of ∅) (state_of ∅)) as (Hl & Hs & _); [reflexivity|].
  split; [exact Hl|exact Hs].
Defined.

(** X18.  The two consumers never write to the credential store, and a
    decrypted content an event holds is never replaced or dropped: whatever
    arrives, every stored entry and every cached content is still there
    afterwards. *)
Theorem eventLoop_keeps_store w (schedule : list Arrival) s :
  let r := eventLoop w schedule s in
  st_localStorage (final r) = st_localStorage s
  ∧ Forall (λ a, is_setItem a = false) (trace r)
  ∧ ∀ k c, st_clear s !! k = Some c → st_clear (final r) !! k = Some c.
Proof.
  unfold eventLoop. revert s.
  induction schedule as [|a l IH]; intros s; [by cbn|].
  cbv zeta. rewrite forEach_cons.
  destruct (deliver_run w a s) as [Ho _].
  destruct (bind_Return (deliver w a) (λ _, forEach l (deliver w)) s tt Ho)
    as (_ & -> & ->).
  destruct (IH (final (deliver w a s))) as (IH1 & IH2 & IH3).
  assert (st_localStorage (final (deliver w a s)) = st_localStorage s
          ∧ Forall (λ a, is_setItem a = false) (trace (deliver w a s))
          ∧ ∀ k c, st_clear s !! k = Some c →
                   st_clear (final (deliver w a s)) !! k = Some c)
    as (Hd1 & Hd2 & Hd3).
  { destruct a as [e|r]; cbn [deliver].
    - apply timelineHandler_final.
    - destruct (scrollbackCallback_run w r s) as (_ & -> & ->).
      split; [done|]. split; [|done].
      apply Forall_fmap, Forall_forall. by intros x _. }
  split; [by rewrite IH1|]. split; [by apply Forall_app|].
  intros k c Hk. by apply IH3, Hd3.
Qed.
